(** * gen-quiz-bot: the text chunker and the client-side cache

    A shallow embedding of the two utility modules of the repository
    (the text chunking utility and the caching utility) together with
    the properties the specification states about them, followed by
    further properties of these modules (the sweep, the key builders,
    [analyzeChunks]) and of two helpers of the export utility and of
    the model client ([sanitizeFilename], [validateTextForQuiz]).

    Conventions of the embedding.

    - A JavaScript string is a list of code units.  Only code units
      below 256 are represented ([ascii]); the white space class [\s]
      and [toLowerCase] are the restrictions of the JavaScript ones to
      that range.
    - The chunker computes with fractional positions: the only
      non-integer constants are [0.3], [0.6] and [0.7], each multiplied
      by a string length.  With integer options every position is a
      multiple of one tenth, so a position [p] is represented by the
      integer [10 * p] (type [tenths]).  The products are taken
      exactly; the rounding of IEEE doubles is not represented.  In
      the program a cursor can come out one unit in the last place
      away from the exact one (118.99999999999999 for 119), and the
      truncation in [substring] then moves a cut by one character.
      What is stated below about cursors, [startIndex] and [endIndex]
      is stated of the exact positions; what is stated about the
      content, the word count and the numbering of the chunks holds
      wherever the text is cut.
    - [Date.now()] is an explicit argument wherever the code reads the
      clock. *)

From Stdlib Require Import ZArith String Ascii List Bool Lia.
Import ListNotations.

Open Scope Z_scope.

(** ** JavaScript strings *)

Module Js.

Definition jsstring := list ascii.

Definition str (s : string) : jsstring := list_ascii_of_string s.

Definition LF : ascii := ascii_of_nat 10.
Definition SPACE : ascii := ascii_of_nat 32.

(** The class [\s] (and the characters removed by [trim]) below 256:
    TAB, LF, VT, FF, CR, SPACE and NBSP. *)
Definition isWhiteSpace (c : ascii) : bool :=
  let n := nat_of_ascii c in
  ((9 <=? n)%nat && (n <=? 13)%nat) || (n =? 32)%nat || (n =? 160)%nat.

(** The class [[.!?]]. *)
Definition isSentenceEnder (c : ascii) : bool :=
  let n := nat_of_ascii c in
  (n =? 46)%nat || (n =? 33)%nat || (n =? 63)%nat.

Definition isLF (c : ascii) : bool := (nat_of_ascii c =? 10)%nat.

Definition strlen (s : jsstring) : Z := Z.of_nat (length s).

(** [s.replace(/\s+/g, ' ')]: [inRun] tells that the previous code unit
    belonged to the white space run being replaced. *)
Fixpoint replaceWhiteSpaceRuns (inRun : bool) (s : jsstring) : jsstring :=
  match s with
  | [] => []
  | c :: rest =>
      if isWhiteSpace c
      then (if inRun then replaceWhiteSpaceRuns true rest
            else SPACE :: replaceWhiteSpaceRuns true rest)
      else c :: replaceWhiteSpaceRuns false rest
  end.

(** [s.replace(/\n{3,}/g, '\n\n')]: [run] counts the line feeds of the
    run read so far; a run of three or more is written as two. *)
Definition flushNewlines (run : nat) : jsstring :=
  repeat LF (if (3 <=? run)%nat then 2%nat else run).

Fixpoint replaceNewlineRuns (run : nat) (s : jsstring) : jsstring :=
  match s with
  | [] => flushNewlines run
  | c :: rest =>
      if isLF c then replaceNewlineRuns (S run) rest
      else flushNewlines run ++ c :: replaceNewlineRuns 0 rest
  end.

Fixpoint trimStart (s : jsstring) : jsstring :=
  match s with
  | [] => []
  | c :: rest => if isWhiteSpace c then trimStart rest else s
  end.

Definition trimEnd (s : jsstring) : jsstring := rev (trimStart (rev s)).

Definition trim (s : jsstring) : jsstring := trimEnd (trimStart s).

(** [s.split(/\s+/)]: [word] is the piece being read; a white space
    run closes it (also an empty one, at the start of the string) and
    the end of the string closes the last piece. *)
Fixpoint splitWs (inRun : bool) (word : jsstring) (s : jsstring)
  : list jsstring :=
  match s with
  | [] => [word]
  | c :: rest =>
      if isWhiteSpace c
      then (if inRun then splitWs true word rest
            else word :: splitWs true [] rest)
      else splitWs false (word ++ [c]) rest
  end.

Definition split (s : jsstring) : list jsstring := splitWs false [] s.

(** [words.join(' ')]. *)
Fixpoint join (words : list jsstring) : jsstring :=
  match words with
  | [] => []
  | [w] => w
  | w :: rest => w ++ SPACE :: join rest
  end.

(** [arr.slice(0, n)] for an integer [n]: a negative [n] counts from
    the end. *)
Definition slice0 {A} (l : list A) (n : Z) : list A :=
  if n <? 0 then firstn (Z.to_nat (Z.of_nat (length l) + n)) l
  else firstn (Z.to_nat n) l.

(** A position in tenths; see the conventions above. *)
Definition tenths := Z.

(** The integer index [substring] makes of a number: truncated towards
    zero and clamped to the string. *)
Definition clampIndex (s : jsstring) (p : tenths) : nat :=
  Z.to_nat (Z.min (Z.max (Z.quot p 10) 0) (strlen s)).

(** [s.substring(a, b)]: the arguments are swapped when [a > b]. *)
Definition substring (s : jsstring) (a b : tenths) : jsstring :=
  let i := clampIndex s a in
  let j := clampIndex s b in
  let from := Nat.min i j in
  let to := Nat.max i j in
  firstn (to - from) (skipn from s).

(** [s.toLowerCase()] below 256: A-Z and the upper case letters of
    Latin-1 (192-222 except the multiplication sign 215). *)
Definition toLowerChar (c : ascii) : ascii :=
  let n := nat_of_ascii c in
  if ((65 <=? n)%nat && (n <=? 90)%nat)
     || ((192 <=? n)%nat && (n <=? 222)%nat && negb (n =? 215)%nat)
  then ascii_of_nat (n + 32) else c.

Definition toLowerCase (s : jsstring) : jsstring := map toLowerChar s.

Definition eqb (a b : jsstring) : bool :=
  if list_eq_dec ascii_dec a b then true else false.

End Js.

Import Js.

(** ** The text chunking utility *)

Record TextChunk := mkTextChunk {
  id : Z * Z;              (* chunk_<index>_<Date.now()> *)
  content : jsstring;
  startIndex : tenths;
  endIndex : tenths;
  wordCount : Z
}.

Record ChunkingOptions := mkChunkingOptions {
  maxWords : option Z;
  maxChars : option Z;
  overlap : option Z;
  preserveParagraphs : option bool;
  preserveSentences : option bool
}.

Definition noOptions : ChunkingOptions :=
  mkChunkingOptions None None None None None.

(** A destructuring default: [x = d]. *)
Definition orDefault {A} (o : option A) (d : A) : A :=
  match o with Some x => x | None => d end.

(** [findLastSentenceEnd]: the regular expression [/[.!?]+\s/g] is run
    over the text and the end of its last match is kept.  A match ends
    right after a white space character that follows a sentence ender,
    and every such place ends a match; [scanSentenceEnds] walks the text
    with the index [i] of the current code unit, [prevEnder] telling
    that the previous one is in [[.!?]]. *)
Fixpoint scanSentenceEnds (prevEnder : bool) (i : Z) (lastMatch : Z)
  (text : jsstring) : Z :=
  match text with
  | [] => lastMatch
  | c :: rest =>
      let lastMatch' :=
        if prevEnder && isWhiteSpace c then i + 1 else lastMatch in
      scanSentenceEnds (isSentenceEnder c) (i + 1) lastMatch' rest
  end.

Definition findLastSentenceEnd (text : jsstring) : Z :=
  let lastMatch := scanSentenceEnds false 0 (-1) text in
  if lastMatch >? 0 then lastMatch else strlen text.

(** [text.lastIndexOf('\n\n')], [-1] when there is none. *)
Fixpoint scanDoubleNewline (i : Z) (last : Z) (text : jsstring) : Z :=
  match text with
  | c :: ((d :: _) as rest) =>
      scanDoubleNewline (i + 1) (if isLF c && isLF d then i else last) rest
  | _ => last
  end.

Definition lastIndexOfDoubleNewline (text : jsstring) : Z :=
  scanDoubleNewline 0 (-1) text.

Definition findLastParagraphEnd (text : jsstring) : Z :=
  let lastParagraph := lastIndexOfDoubleNewline text in
  if lastParagraph >? 0 then lastParagraph + 2 else strlen text.

Definition trimToWordLimit (text : jsstring) (wordLimit : Z) : jsstring :=
  let words := split text in
  if Z.of_nat (length words) <=? wordLimit then text
  else join (slice0 words wordLimit).

Definition generateChunkId (now : Z) (index : Z) : Z * Z := (index, now).

(** The text the chunker works on. *)
Definition cleanText (text : jsstring) : jsstring :=
  trim (replaceNewlineRuns 0 (replaceWhiteSpaceRuns false text)).

Section Chunker.

(** [clock i] is the value of [Date.now()] when the id of chunk [i] is
    generated. *)
Variable clock : Z -> Z.

Variable clean : jsstring.
Variables (maxWords' maxChars' overlap' : Z).
Variables (preserveParagraphs' preserveSentences' : bool).

(** One pass through the body of the [while] loop, from the cursor
    [currentIndex]: the chunk that is pushed and the next cursor.
    Positions are in tenths: [currentIndex + maxChars] reads
    [currentIndex + 10 * maxChars'], the test [a > n * 0.7] on integers
    [a] and [n] reads [10 * a >? 7 * n], and [n * 0.3] is [3 * n]
    tenths. *)
Definition chunkStep (currentIndex : tenths) (chunkCounter : Z)
  : TextChunk * tenths :=
  let len := 10 * strlen clean in
  let chunkEnd := Z.min (currentIndex + 10 * maxChars') len in
  let chunkContent := substring clean currentIndex chunkEnd in
  (* sentence boundaries *)
  let '(chunkEnd, chunkContent) :=
    if preserveSentences' && (chunkEnd <? len) then
      let lastSentenceEnd := findLastSentenceEnd chunkContent in
      if 10 * lastSentenceEnd >? 7 * strlen chunkContent then
        let chunkEnd' := currentIndex + 10 * lastSentenceEnd in
        (chunkEnd', substring clean currentIndex chunkEnd')
      else (chunkEnd, chunkContent)
    else (chunkEnd, chunkContent) in
  (* paragraph boundaries *)
  let '(chunkEnd, chunkContent) :=
    if preserveParagraphs' && (chunkEnd <? len) then
      let lastParagraphEnd := findLastParagraphEnd chunkContent in
      if 10 * lastParagraphEnd >? 6 * strlen chunkContent then
        let chunkEnd' := currentIndex + 10 * lastParagraphEnd in
        (chunkEnd', substring clean currentIndex chunkEnd')
      else (chunkEnd, chunkContent)
    else (chunkEnd, chunkContent) in
  (* word count limit *)
  let currentWordCount := Z.of_nat (length (split chunkContent)) in
  let '(chunkEnd, chunkContent) :=
    if currentWordCount >? maxWords' then
      let chunkContent' := trimToWordLimit chunkContent maxWords' in
      (currentIndex + 10 * strlen chunkContent', chunkContent')
    else (chunkEnd, chunkContent) in
  let chunk :=
    {| id := generateChunkId (clock chunkCounter) chunkCounter;
       content := trim chunkContent;
       startIndex := currentIndex;
       endIndex := chunkEnd;
       wordCount := Z.of_nat (length (split (trim chunkContent))) |} in
  (* next starting position, with overlap *)
  let overlapChars := Z.min (10 * overlap') (3 * strlen chunkContent) in
  (chunk, chunkEnd - overlapChars).

(** The [while] loop.  [fuel] bounds the number of passes; [None] is a
    loop that has not finished within it. *)
Fixpoint chunkLoop (fuel : nat) (chunks : list TextChunk)
  (currentIndex : tenths) (chunkCounter : Z) : option (list TextChunk) :=
  match fuel with
  | O => None
  | S fuel' =>
      if currentIndex <? 10 * strlen clean then
        let '(chunk, currentIndex') := chunkStep currentIndex chunkCounter in
        let chunks' := chunks ++ [chunk] in
        let chunkCounter' := chunkCounter + 1 in
        (* Prevent infinite loop *)
        if (currentIndex' >=? 10 * strlen clean)
           || (Z.of_nat (length chunks') >? 100)
        then Some chunks'
        else chunkLoop fuel' chunks' currentIndex' chunkCounter'
      else Some chunks
  end.

End Chunker.

Definition chunkTextFuel (fuel : nat) (clock : Z -> Z) (text : jsstring)
  (options : ChunkingOptions) : option (list TextChunk) :=
  let maxWords' := orDefault (maxWords options) 500 in
  let maxChars' := orDefault (maxChars options) 3000 in
  let overlap' := orDefault (overlap options) 50 in
  let preserveParagraphs' := orDefault (preserveParagraphs options) true in
  let preserveSentences' := orDefault (preserveSentences options) true in
  let clean := cleanText text in
  if strlen clean =? 0 then Some []
  else
    let wordCount' := Z.of_nat (length (split clean)) in
    if (wordCount' <=? maxWords') && (strlen clean <=? maxChars') then
      Some [ {| id := generateChunkId (clock 0) 0;
                content := clean;
                startIndex := 0;
                endIndex := 10 * strlen clean;
                wordCount := wordCount' |} ]
    else
      chunkLoop clock clean maxWords' maxChars' overlap'
        preserveParagraphs' preserveSentences' fuel [] 0 0.

(** [chunkText].  The loop pushes one chunk per pass and leaves once
    more than 100 chunks are held, so 101 passes are always enough (see
    [chunkLoop_terminates]). *)
Definition chunkText (clock : Z -> Z) (text : jsstring)
  (options : ChunkingOptions) : option (list TextChunk) :=
  chunkTextFuel 101 clock text options.

(** *** deduplicateChunks *)

(** A JavaScript [Set] of strings: its elements in insertion order. *)
Definition setHas (s : list jsstring) (w : jsstring) : bool :=
  existsb (Js.eqb w) s.

Definition setAdd (s : list jsstring) (w : jsstring) : list jsstring :=
  if setHas s w then s else s ++ [w].

Definition newSet (ws : list jsstring) : list jsstring :=
  fold_left setAdd ws [].

(** The quotient [intersection.size / union.size], kept as a fraction. *)
Record Fraction := mkFraction { numer : Z; denom : Z }.

(** [f < 0.7] for a fraction of two set sizes with a positive
    denominator. *)
Definition ltSevenTenths (f : Fraction) : bool :=
  10 * numer f <? 7 * denom f.

Definition calculateSimilarity (text1 text2 : jsstring) : Fraction :=
  let words1 := newSet (split (toLowerCase text1)) in
  let words2 := newSet (split (toLowerCase text2)) in
  let intersection := newSet (filter (setHas words2) words1) in
  let union := newSet (words1 ++ words2) in
  {| numer := Z.of_nat (length intersection);
     denom := Z.of_nat (length union) |}.

(** The [for] loop of [deduplicateChunks] over the chunks not yet
    visited. *)
Fixpoint deduplicateLoop (deduplicated : list TextChunk)
  (rest : list TextChunk) : list TextChunk :=
  match rest with
  | [] => deduplicated
  | current :: rest' =>
      let previous := last deduplicated current in
      let similarity :=
        calculateSimilarity (content current) (content previous) in
      if ltSevenTenths similarity
      then deduplicateLoop (deduplicated ++ [current]) rest'
      else deduplicateLoop deduplicated rest'
  end.

Definition deduplicateChunks (chunks : list TextChunk) : list TextChunk :=
  match chunks with
  | [] => chunks
  | [_] => chunks
  | first :: rest => deduplicateLoop [first] rest
  end.

Definition sampleClock (i : Z) : Z := 1700000000000 + i.

Definition sampleChunk (i : Z) (text : string) : TextChunk :=
  {| id := (i, sampleClock i);
     content := str text;
     startIndex := 100 * i;
     endIndex := 100 * i + 100;
     wordCount := 2 |}.

(** *** analyzeChunks *)

(** A number that may be infinite: [Math.min()] without argument is
    [Infinity] and [Math.max()] is [-Infinity]. *)
Inductive Extended := NegInfinity | Finite (z : Z) | PosInfinity.

Definition extMin (a : Extended) (x : Z) : Extended :=
  match a with
  | PosInfinity => Finite x
  | Finite z => Finite (Z.min z x)
  | NegInfinity => NegInfinity
  end.

Definition extMax (a : Extended) (x : Z) : Extended :=
  match a with
  | NegInfinity => Finite x
  | Finite z => Finite (Z.max z x)
  | PosInfinity => PosInfinity
  end.

(** [Math.min(...xs)] and [Math.max(...xs)]. *)
Definition mathMin (xs : list Z) : Extended := fold_left extMin xs PosInfinity.
Definition mathMax (xs : list Z) : Extended := fold_left extMax xs NegInfinity.

(** [xs.reduce((a, b) => a + b, 0)] *)
Definition sumOf (xs : list Z) : Z := fold_left Z.add xs 0.

(** The averages are kept as fractions; the denominator 0 (with the
    numerator 0) is the [NaN] of [0 / 0]. *)
Record ChunkAnalysis := mkChunkAnalysis {
  totalChunks : Z;
  avgWordCount : Fraction;
  avgCharCount : Fraction;
  minWordCount : Extended;
  maxWordCount : Extended;
  minCharCount : Extended;
  maxCharCount : Extended
}.

Definition analyzeChunks (chunks : list TextChunk) : ChunkAnalysis :=
  let wordCounts := map wordCount chunks in
  let charCounts := map (fun chunk => strlen (content chunk)) chunks in
  {| totalChunks := Z.of_nat (length chunks);
     avgWordCount :=
       {| numer := sumOf wordCounts; denom := Z.of_nat (length chunks) |};
     avgCharCount :=
       {| numer := sumOf charCounts; denom := Z.of_nat (length chunks) |};
     minWordCount := mathMin wordCounts;
     maxWordCount := mathMax wordCounts;
     minCharCount := mathMin charCounts;
     maxCharCount := mathMax charCounts |}.

(** [lo] and [hi] are the least and the greatest of [xs], and the sum
    [total] of the [count] numbers lies between [count * lo] and
    [count * hi] (their average lies between [lo] and [hi]). *)
Definition extremesOf (xs : list Z) (lo hi total count : Z) : Prop :=
  In lo xs /\ In hi xs
  /\ (forall x, In x xs -> lo <= x <= hi)
  /\ count * lo <= total <= count * hi.

(** ** The caching utility *)

Module CacheUtil.

(** [x || d] on a number: [undefined] and [0] give the default. *)
Definition numOr (x : option Z) (d : Z) : Z :=
  match x with
  | Some v => if v =? 0 then d else v
  | None => d
  end.

Inductive StorageKind := memory | localStorage.

Record CacheOptions := mkCacheOptions {
  ttl : option Z;                 (* Time to live in milliseconds *)
  maxEntries : option Z;
  storage : option StorageKind
}.

Record RequiredCacheOptions := mkRequired {
  ttl' : Z;
  maxEntries' : Z;
  storage' : StorageKind
}.

Section Cache.

(** The payload type [T] of a cache is [option V]: [None] is the
    JavaScript [null], which [T] may contain ([Cache<any>]) and which
    [get] also returns for a miss. *)
Variable V : Type.

Definition payload := option V.

Record CacheEntry := mkEntry {
  data : payload;
  timestamp : Z;
  expiresAt : Z;
  key : string
}.

(** A JavaScript [Map]: the bindings in insertion order. *)
Definition JsMap := list (string * CacheEntry).

Fixpoint mapGet (m : JsMap) (k : string) : option CacheEntry :=
  match m with
  | [] => None
  | (k', e) :: rest => if String.eqb k' k then Some e else mapGet rest k
  end.

(** [m.set(k, e)]: a bound key keeps its place, a new one goes last. *)
Fixpoint mapSet (m : JsMap) (k : string) (e : CacheEntry) : JsMap :=
  match m with
  | [] => [(k, e)]
  | (k', e') :: rest =>
      if String.eqb k' k then (k', e) :: rest
      else (k', e') :: mapSet rest k e
  end.

Fixpoint mapDelete (m : JsMap) (k : string) : JsMap :=
  match m with
  | [] => []
  | (k', e') :: rest =>
      if String.eqb k' k then rest else (k', e') :: mapDelete rest k
  end.

Definition mapKeys (m : JsMap) : list string := map fst m.

Definition mapSize (m : JsMap) : Z := Z.of_nat (length m).

(** The browser's [localStorage], shared by every cache instance of
    the page: strings under string keys, in [Object.keys] order.  The
    text [JSON.stringify] makes of an entry is represented by the entry
    [JSON.parse] reads back from it (payloads are JSON values); any
    other text is one on which [JSON.parse] throws, or the empty
    string. *)
Inductive StoredText :=
  | JsonOf (e : CacheEntry)
  | OtherText (s : string).

Definition Storage := list (string * StoredText).

Fixpoint getItem (ls : Storage) (k : string) : option StoredText :=
  match ls with
  | [] => None
  | (k', v) :: rest => if String.eqb k' k then Some v else getItem rest k
  end.

(** [localStorage.setItem(k, v)] when the browser accepts the write. *)
Fixpoint setItem (ls : Storage) (k : string) (v : StoredText) : Storage :=
  match ls with
  | [] => [(k, v)]
  | (k', v') :: rest =>
      if String.eqb k' k then (k', v) :: rest
      else (k', v') :: setItem rest k v
  end.

Fixpoint removeItem (ls : Storage) (k : string) : Storage :=
  match ls with
  | [] => []
  | (k', v') :: rest =>
      if String.eqb k' k then rest else (k', v') :: removeItem rest k
  end.

Definition storageKeys (ls : Storage) : list string := map fst ls.

(** [`cache_${key}`] *)
Definition storageKey (k : string) : string := ("cache_" ++ k)%string.

(** [key.startsWith('cache_')] *)
Definition isCacheKey (k : string) : bool := String.prefix "cache_" k.

Record Cache := mkCache {
  memoryCache : JsMap;
  options : RequiredCacheOptions
}.

(** The constructor (the interval timer it starts is not part of the
    state). *)
Definition newCache (o : CacheOptions) : Cache :=
  {| memoryCache := [];
     options :=
       {| ttl' := numOr (ttl o) (30 * 60 * 1000);
          maxEntries' := numOr (maxEntries o) 100;
          storage' := match storage o with
                      | Some s => s
                      | None => memory
                      end |} |}.

Definition withMemory (c : Cache) (m : JsMap) : Cache :=
  {| memoryCache := m; options := options c |}.

(** [setInMemory] *)
Definition setInMemory (c : Cache) (k : string) (entry : CacheEntry)
  : Cache :=
  let m := memoryCache c in
  (* Enforce max entries limit *)
  let m :=
    if mapSize m >=? maxEntries' (options c) then
      match mapKeys m with
      | oldestKey :: _ => mapDelete m oldestKey
      | [] => m                    (* delete(undefined) *)
      end
    else m in
  withMemory c (mapSet m k entry).

(** [setInLocalStorage]; [accepted] tells whether [JSON.stringify] and
    [localStorage.setItem] go through or one of them throws (quota
    exceeded, storage disabled). *)
Definition setInLocalStorage (c : Cache) (ls : Storage) (accepted : bool)
  (k : string) (entry : CacheEntry) : Cache * Storage :=
  if accepted then (c, setItem ls (storageKey k) (JsonOf entry))
  else
    (* Fallback to memory storage *)
    (setInMemory c k entry, ls).

(** [getFromLocalStorage] *)
Definition getFromLocalStorage (ls : Storage) (k : string)
  : option CacheEntry :=
  match getItem ls (storageKey k) with
  | Some (JsonOf e) => Some e
  | Some (OtherText _) => None     (* empty item, or JSON.parse throws *)
  | None => None
  end.

(** [set(key, data, customTtl)]; [now1] and [now2] are the two readings
    of the clock. *)
Definition set (c : Cache) (ls : Storage) (accepted : bool)
  (now1 now2 : Z) (k : string) (d : payload) (customTtl : option Z)
  : Cache * Storage :=
  let ttl := numOr customTtl (ttl' (options c)) in
  let entry :=
    {| data := d; timestamp := now1; expiresAt := now2 + ttl; key := k |} in
  match storage' (options c) with
  | localStorage => setInLocalStorage c ls accepted k entry
  | memory => (setInMemory c k entry, ls)
  end.

(** [delete(key)] *)
Definition delete (c : Cache) (ls : Storage) (k : string)
  : Cache * Storage :=
  match storage' (options c) with
  | localStorage => (c, removeItem ls (storageKey k))
  | memory => (withMemory c (mapDelete (memoryCache c) k), ls)
  end.

(** The entry [get] reads from the backend of the cache. *)
Definition lookup (c : Cache) (ls : Storage) (k : string)
  : option CacheEntry :=
  match storage' (options c) with
  | localStorage => getFromLocalStorage ls k
  | memory => mapGet (memoryCache c) k
  end.

(** [get(key)] *)
Definition get (c : Cache) (ls : Storage) (now : Z) (k : string)
  : Cache * Storage * payload :=
  match lookup c ls k with
  | None => (c, ls, None)
  | Some entry =>
      (* Check if expired *)
      if now >? expiresAt entry then (delete c ls k, None)
      else (c, ls, data entry)
  end.

(** [clear()] *)
Definition clear (c : Cache) (ls : Storage) : Cache * Storage :=
  match storage' (options c) with
  | localStorage =>
      let keys := storageKeys ls in
      (c, fold_left
            (fun ls' k => if isCacheKey k then removeItem ls' k else ls')
            keys ls)
  | memory => (withMemory c [], ls)
  end.

(** [getStats().size] *)
Definition getStats (c : Cache) (ls : Storage) : Z :=
  match storage' (options c) with
  | localStorage =>
      Z.of_nat (length (filter isCacheKey (storageKeys ls)))
  | memory => mapSize (memoryCache c)
  end.

(** [getOrSet(key, generator, customTtl)].  The generator acts on the
    world [W] outside the cache and either resolves to a payload or
    rejects with an error of type [E]; the rejection of the promise
    [getOrSet] returns is [Rejected]. *)
Section GetOrSet.

Variables W E : Type.

Inductive Outcome :=
  | Resolved (d : payload)
  | Rejected (e : E).

Definition getOrSet (c : Cache) (ls : Storage) (w : W)
  (now : Z) (accepted : bool) (now1 now2 : Z)
  (k : string) (generator : W -> W * Outcome) (customTtl : option Z)
  : Cache * Storage * W * Outcome :=
  let '(c1, ls1, cached) := get c ls now k in
  match cached with
  | Some v => (c1, ls1, w, Resolved (Some v))
  | None =>
      match generator w with
      | (w', Rejected e) => (c1, ls1, w', Rejected e)
      | (w', Resolved d) =>
          let '(c2, ls2) := set c1 ls1 accepted now1 now2 k d customTtl in
          (c2, ls2, w', Resolved d)
      end
  end.

End GetOrSet.

End Cache.

Arguments mkEntry {V}.
Arguments data {V}.
Arguments timestamp {V}.
Arguments expiresAt {V}.
Arguments key {V}.
Arguments JsonOf {V}.
Arguments OtherText {V}.
Arguments mkCache {V}.
Arguments memoryCache {V}.
Arguments options {V}.
Arguments mapGet {V}.
Arguments mapSet {V}.
Arguments mapDelete {V}.
Arguments mapKeys {V}.
Arguments mapSize {V}.
Arguments getItem {V}.
Arguments setItem {V}.
Arguments removeItem {V}.
Arguments storageKeys {V}.
Arguments newCache {V}.
Arguments withMemory {V}.
Arguments setInMemory {V}.
Arguments setInLocalStorage {V}.
Arguments getFromLocalStorage {V}.
Arguments set {V}.
Arguments delete {V}.
Arguments lookup {V}.
Arguments get {V}.
Arguments clear {V}.
Arguments getStats {V}.
Arguments Resolved {V E}.
Arguments Rejected {V E}.
Arguments getOrSet {V W E}.

(** The singleton instances. *)
Definition quizCache {V} : Cache V :=
  newCache (mkCacheOptions (Some (60 * 60 * 1000)) None (Some localStorage)).

Definition pdfCache {V} : Cache V :=
  newCache
    (mkCacheOptions (Some (24 * 60 * 60 * 1000)) None (Some localStorage)).

Definition apiCache {V} : Cache V :=
  newCache (mkCacheOptions (Some (15 * 60 * 1000)) None (Some memory)).

(** A sequence of [set] calls, each with what it reads from its
    environment. *)
Record SetCall (V : Type) := mkSetCall {
  callAccepted : bool;
  callNow1 : Z;
  callNow2 : Z;
  callKey : string;
  callData : option V;
  callTtl : option Z
}.

Arguments mkSetCall {V}.
Arguments callAccepted {V}.
Arguments callNow1 {V}.
Arguments callNow2 {V}.
Arguments callKey {V}.
Arguments callData {V}.
Arguments callTtl {V}.

Definition setCall {V} (st : Cache V * Storage V) (call : SetCall V)
  : Cache V * Storage V :=
  set (fst st) (snd st) (callAccepted call) (callNow1 call) (callNow2 call)
    (callKey call) (callData call) (callTtl call).

Definition setMany {V} (c : Cache V) (ls : Storage V)
  (calls : list (SetCall V)) : Cache V * Storage V :=
  fold_left setCall calls (c, ls).

(** The entry [get] has just expired, if it has. *)
Definition expiredAt {V} (c : Cache V) (ls : Storage V) (now : Z)
  (k : string) : bool :=
  match lookup c ls k with
  | Some entry => now >? expiresAt entry
  | None => false
  end.

(** [cleanup()], the periodic sweep; [now] is its reading of the
    clock.  The memory branch walks the entries of the map and deletes
    the expired ones by key; the persistent branch walks the keys of
    the store, and under the prefix [cache_] removes what has expired
    and what [JSON.parse] cannot read ("Remove corrupted entries"; a
    key without item reads as the empty string, which cannot be parsed
    either). *)
Definition cleanup {V} (c : Cache V) (ls : Storage V) (now : Z)
  : Cache V * Storage V :=
  match storage' (options c) with
  | localStorage =>
      let keys := storageKeys ls in
      (c, fold_left
            (fun ls' k =>
               if isCacheKey k then
                 match getItem ls' k with
                 | Some (JsonOf entry) =>
                     if expiresAt entry <? now then removeItem ls' k else ls'
                 | _ => removeItem ls' k
                 end
               else ls')
            keys ls)
  | memory =>
      (withMemory c
         (fold_left
            (fun m (binding : string * CacheEntry V) =>
               if expiresAt (snd binding) <? now
               then mapDelete m (fst binding) else m)
            (memoryCache c) (memoryCache c)), ls)
  end.

(** What the sweep keeps in the map and in the store. *)
Definition liveBinding {V} (now : Z) (binding : string * CacheEntry V)
  : bool :=
  negb (expiresAt (snd binding) <? now).

Definition sweptItem {V} (now : Z) (item : string * StoredText V) : bool :=
  if isCacheKey (fst item) then
    match snd item with
    | JsonOf entry => negb (expiresAt entry <? now)
    | OtherText _ => false
    end
  else true.

(** The items of the store that are not under the prefix [cache_]. *)
Definition notCacheKey {V} (kv : string * StoredText V) : bool :=
  negb (isCacheKey (fst kv)).

(** Sample caches and calls. *)
Definition threeCalls : list (SetCall Z) :=
  [ mkSetCall true 0 0 "a" (Some 1) None;
    mkSetCall true 1 1 "b" (Some 2) None;
    mkSetCall true 2 2 "c" (Some 3) None ].

Definition smallMemoryCache : Cache Z :=
  newCache (mkCacheOptions None (Some 2) (Some memory)).

Definition smallPersistentCache : Cache Z :=
  newCache (mkCacheOptions None (Some 2) (Some localStorage)).

Definition cacheWithShortLivedEntry : Cache Z * Storage Z :=
  set apiCache [] true 0 0 "k" (Some 5) (Some 1).

Definition sweepStore : Storage Z :=
  [ ("cache_old"%string,
     JsonOf (mkEntry (Some 1) 0 10 "old"%string));
    ("cache_new"%string,
     JsonOf (mkEntry (Some 2) 0 1000 "new"%string));
    ("cache_bad"%string, OtherText "{not json"%string);
    ("theme"%string, OtherText "dark"%string) ].

(** A producer that fails, and one that counts its calls in the
    world. *)
Definition failingProducer (w : nat) : nat * Outcome Z string :=
  (S w, Rejected "producer failed"%string).

Definition countingProducer (d : option Z) (w : nat)
  : nat * Outcome Z string :=
  (S w, Resolved d).

End CacheUtil.

(** ** The key builders of [cacheUtils] *)

Module CacheKeys.

(** [ToInt32]: the signed 32-bit value of an integer. *)
Definition toInt32 (z : Z) : Z := (z + 2 ^ 31) mod 2 ^ 32 - 2 ^ 31.

(** [text.charCodeAt(i)] *)
Definition charCode (c : ascii) : Z := Z.of_nat (nat_of_ascii c).

(** One pass of the loop of [generateTextHash]:
    [hash = ((hash << 5) - hash) + char; hash = hash & hash].  The
    shift takes the 32-bit value of [hash] and gives a 32-bit value;
    the subtraction and the addition are exact; [hash & hash] is
    [ToInt32]. *)
Definition hashStep (hash : Z) (c : ascii) : Z :=
  let hash := (toInt32 (toInt32 hash * 32) - hash) + charCode c in
  toInt32 hash.

(** The value of [hash] after the loop. *)
Definition textHash (text : jsstring) : Z := fold_left hashStep text 0.

(** The digit of [toString(radix)] for the value [d]: 0-9, a-z. *)
Definition digitChar (d : Z) : ascii :=
  if d <? 10 then ascii_of_nat (48 + Z.to_nat d)
  else ascii_of_nat (87 + Z.to_nat d).

(** The digits of [n], the most significant first, before [acc]. *)
Fixpoint digitsOf (fuel : nat) (radix n : Z) (acc : jsstring) : jsstring :=
  match fuel with
  | O => acc
  | S fuel' =>
      let acc' := digitChar (n mod radix) :: acc in
      if n / radix =? 0 then acc' else digitsOf fuel' radix (n / radix) acc'
  end.

(** [n.toString(radix)] for an integer [n >= 0] (the numbers here are
    below 2^53); a number has no more digits than bits. *)
Definition toStringRadix (radix n : Z) : jsstring :=
  digitsOf (S (Z.to_nat (Z.log2 n))) radix n [].

(** [generateTextHash(text)] *)
Definition generateTextHash (text : jsstring) : string :=
  string_of_list_ascii (toStringRadix 36 (Z.abs (textHash text))).

(** [createPdfKey(fileName, fileSize)], for a size that is an integer
    [>= 0]. *)
Definition createPdfKey (fileName : string) (fileSize : Z) : string :=
  ("pdf_" ++ fileName ++ "_"
   ++ string_of_list_ascii (toStringRadix 10 fileSize))%string.

(** [createQuizKey(textHash, options)]; [optionsJson] is the text
    [JSON.stringify(options)]. *)
Definition createQuizKey (textHash : string) (optionsJson : string)
  : string :=
  ("quiz_" ++ textHash ++ "_" ++ optionsJson)%string.

(** The value of a digit and of a sequence of digits (what
    [parseInt(s, radix)] reads). *)
Definition digitValue (c : ascii) : Z :=
  let n := Z.of_nat (nat_of_ascii c) in
  if n <? 58 then n - 48 else n - 87.

Definition valueOf (radix : Z) (digits : jsstring) : Z :=
  fold_left (fun acc c => acc * radix + digitValue c) digits 0.

Definition UNDERSCORE : ascii := ascii_of_nat 95.

End CacheKeys.

(** ** The export utility: file names *)

Module ExportUtil.

Definition UNDERSCORE : ascii := ascii_of_nat 95.

(** The characters the class [[^a-z0-9\s-_]] with the flag [i] does
    not match: letters of either case, digits, white space, the hyphen
    and the underscore. *)
Definition keptInFilename (c : ascii) : bool :=
  let n := nat_of_ascii c in
  ((97 <=? n)%nat && (n <=? 122)%nat)
  || ((65 <=? n)%nat && (n <=? 90)%nat)
  || ((48 <=? n)%nat && (n <=? 57)%nat)
  || isWhiteSpace c
  || (n =? 45)%nat || (n =? 95)%nat.

(** [s.replace(/\s+/g, '_')] *)
Fixpoint replaceWhiteSpaceRunsByUnderscore (inRun : bool) (s : jsstring)
  : jsstring :=
  match s with
  | [] => []
  | c :: rest =>
      if isWhiteSpace c
      then (if inRun then replaceWhiteSpaceRunsByUnderscore true rest
            else UNDERSCORE :: replaceWhiteSpaceRunsByUnderscore true rest)
      else c :: replaceWhiteSpaceRunsByUnderscore false rest
  end.

Definition isUnderscore (c : ascii) : bool := (nat_of_ascii c =? 95)%nat.

(** [s.replace(/_+/g, '_')] *)
Fixpoint collapseUnderscores (inRun : bool) (s : jsstring) : jsstring :=
  match s with
  | [] => []
  | c :: rest =>
      if isUnderscore c
      then (if inRun then collapseUnderscores true rest
            else UNDERSCORE :: collapseUnderscores true rest)
      else c :: collapseUnderscores false rest
  end.

(** [sanitizeFilename] *)
Definition sanitizeFilename (filename : jsstring) : jsstring :=
  toLowerCase
    (collapseUnderscores false
       (replaceWhiteSpaceRunsByUnderscore false
          (filter keptInFilename filename))).

(** Lower case letters, digits, the hyphen and the underscore. *)
Definition safeInFilename (c : ascii) : bool :=
  let n := nat_of_ascii c in
  ((97 <=? n)%nat && (n <=? 122)%nat)
  || ((48 <=? n)%nat && (n <=? 57)%nat)
  || (n =? 45)%nat || (n =? 95)%nat.

(** No two underscores in a row; [prev] tells that the character
    before is an underscore. *)
Fixpoint singleUnderscores (prev : bool) (s : jsstring) : Prop :=
  match s with
  | [] => True
  | c :: rest =>
      if isUnderscore c then prev = false /\ singleUnderscores true rest
      else singleUnderscores false rest
  end.

(** A character that is kept and is not white space. *)
Definition cleanChar (c : ascii) : Prop :=
  keptInFilename c = true /\ isWhiteSpace c = false.

End ExportUtil.

(** ** The model client: validation of the text *)

Module ModelClient.

Record Validation := mkValidation {
  isValid : bool;
  message : option string
}.

(** [validateTextForQuiz]; [!text] holds for the empty string. *)
Definition validateTextForQuiz (text : jsstring) : Validation :=
  if (match text with [] => true | _ => false end)
     || (strlen (trim text) =? 0)
  then mkValidation false (Some "Text content is empty"%string)
  else
    let wordCount := Z.of_nat (length (split (trim text))) in
    if wordCount <? 50 then
      mkValidation false
        (Some "Text is too short. At least 50 words are required for quiz generation."%string)
    else if wordCount >? 10000 then
      mkValidation false
        (Some "Text is too long. Please use a document with fewer than 10,000 words."%string)
    else mkValidation true None.

(** [estimateQuestionCount]; [Math.floor(wordCount / 150)] of a count
    that is not negative is the integer quotient. *)
Definition estimateQuestionCount (text : jsstring) : Z :=
  let wordCount := Z.of_nat (length (split (trim text))) in
  let estimatedCount := wordCount / 150 in
  Z.max 1 (Z.min estimatedCount 20).

End ModelClient.

(** ** Predicates of the specification *)

(** Each chunk after the first starts at or before the end of the one
    before it, and no more than [bound] before it (positions in
    tenths). *)
Fixpoint chained (bound : Z) (l : list TextChunk) : Prop :=
  match l with
  | c :: ((d :: _) as rest) =>
      endIndex c - bound <= startIndex d <= endIndex c /\ chained bound rest
  | _ => True
  end.

(** The position [p] lies in the half-open interval of some chunk. *)
Definition covered (chunks : list TextChunk) (p : tenths) : Prop :=
  exists c, In c chunks /\ startIndex c <= p < endIndex c.

Definition coveredb (chunks : list TextChunk) (p : tenths) : bool :=
  existsb (fun c => (startIndex c <=? p) && (p <? endIndex c)) chunks.

(** The chunks cover the normalized text [[0, len)] without a gap. *)
Definition coversText (chunks : list TextChunk) (len : Z) : Prop :=
  forall p, 0 <= p < 10 * len -> covered chunks p.

(** [below07 c prev]: the similarity of [c] to [prev] is less than 0.7. *)
Definition below07 (c prev : TextChunk) : bool :=
  ltSevenTenths (calculateSimilarity (content c) (content prev)).

(** The scan of the specification: [keptAfter prev rest kept] when
    [kept] is what remains of [rest] after removing every chunk whose
    similarity to the immediately preceding kept chunk, [prev] at
    first, is at least 0.7. *)
Inductive keptAfter : TextChunk -> list TextChunk -> list TextChunk -> Prop :=
  | kept_done prev : keptAfter prev [] []
  | kept_remove prev c rest kept :
      below07 c prev = false ->
      keptAfter prev rest kept ->
      keptAfter prev (c :: rest) kept
  | kept_keep prev c rest kept :
      below07 c prev = true ->
      keptAfter c rest kept ->
      keptAfter prev (c :: rest) (c :: kept).


(** The text has no white space but single spaces: [prevSpace] tells
    that the code unit before is a space. *)
Fixpoint singleSpaced (prevSpace : bool) (s : jsstring) : Prop :=
  match s with
  | [] => True
  | c :: rest =>
      if isWhiteSpace c
      then c = SPACE /\ prevSpace = false /\ singleSpaced true rest
      else singleSpaced false rest
  end.

(** The text neither starts nor ends with white space. *)
Definition noOuterWhiteSpace (s : jsstring) : Prop :=
  (forall c rest, s = c :: rest -> isWhiteSpace c = false)
  /\ (forall front c, s = front ++ [c] -> isWhiteSpace c = false).

(** The code units of the text that are not white space. *)
Definition inkOf (s : jsstring) : jsstring :=
  filter (fun c => negb (isWhiteSpace c)) s.

(** The number of white space runs that start in the text; [inRun]
    tells that the code unit before is white space. *)
Fixpoint wsRuns (inRun : bool) (s : jsstring) : nat :=
  match s with
  | [] => 0
  | c :: rest =>
      if isWhiteSpace c
      then (if inRun then wsRuns true rest else S (wsRuns true rest))
      else wsRuns false rest
  end.

(** [l] is [l'] with some elements left out, the others in their
    order. *)
Inductive subsequence {A} : list A -> list A -> Prop :=
  | subsequence_nil : subsequence [] []
  | subsequence_skip x l l' : subsequence l l' -> subsequence l (x :: l')
  | subsequence_keep x l l' : subsequence l l' -> subsequence (x :: l) (x :: l').

(** A word without white space. *)
Definition inkWord (w : jsstring) : Prop :=
  Forall (fun c => isWhiteSpace c = false) w.

(** * Properties of the chunker *)

(** Boolean comparisons of the code as facts for [lia]. *)
Ltac zbool :=
  rewrite ?Z.geb_leb, ?Z.gtb_ltb in *;
  repeat match goal with
         | H : (_ <? _) = true |- _ => apply Z.ltb_lt in H
         | H : (_ <? _) = false |- _ => apply Z.ltb_ge in H
         | H : (_ <=? _) = true |- _ => apply Z.leb_le in H
         | H : (_ <=? _) = false |- _ => apply Z.leb_gt in H
         | H : (_ =? _) = true |- _ => apply Z.eqb_eq in H
         | H : (_ =? _) = false |- _ => apply Z.eqb_neq in H
         end.

Section ChunkLoopFacts.

Variable clock : Z -> Z.
Variable clean : jsstring.
Variables (mw mc ov : Z) (pp ps : bool).

Let step := chunkStep clock clean mw mc ov pp ps.
Let loop := chunkLoop clock clean mw mc ov pp ps.

(** Every pass pushes one chunk, and the loop is left as soon as more
    than 100 are held: with [chunks] held, [101 - length chunks] passes
    are enough, and no more than 101 chunks come out. *)
Lemma chunkLoop_terminates (fuel : nat) :
  forall chunks currentIndex chunkCounter,
    (length chunks <= 100)%nat ->
    (101 - length chunks <= fuel)%nat ->
    exists out,
      loop fuel chunks currentIndex chunkCounter = Some out
      /\ (length out <= 101)%nat.
Proof.
  induction fuel as [|fuel IH]; intros chunks cur cnt Hlen Hfuel.
  - lia.
  - cbn [loop chunkLoop].
    destruct (cur <? 10 * strlen clean).
    + destruct (chunkStep clock clean mw mc ov pp ps cur cnt)
        as [chunk cur'] eqn:Hstep.
      assert (Hl : length (chunks ++ [chunk]) = S (length chunks))
        by (rewrite length_app; simpl; lia).
      destruct ((cur' >=? 10 * strlen clean)
                || (Z.of_nat (length (chunks ++ [chunk])) >? 100)) eqn:Hbrk.
      * eexists; split; [reflexivity | lia].
      * apply orb_false_iff in Hbrk as [_ Hcap].
        apply IH; lia.
    + eexists; split; [reflexivity | lia].
Qed.

End ChunkLoopFacts.

(** [chunkText] returns, with at most 101 chunks, whatever the text and
    the options are. *)
Lemma chunkText_terminates clock text options :
  exists chunks,
    chunkText clock text options = Some chunks
    /\ (length chunks <= 101)%nat.
Proof.
  unfold chunkText, chunkTextFuel.
  destruct (strlen (cleanText text) =? 0).
  - exists []; split; [reflexivity | simpl; lia].
  - destruct (_ && _).
    + eexists; split; [reflexivity | simpl; lia].
    + apply chunkLoop_terminates; simpl; lia.
Qed.

Section ChunkLoopCover.

Variable clock : Z -> Z.
Variable clean : jsstring.
Variables (mw mc ov : Z) (pp ps : bool).
Hypothesis ov_nonneg : 0 <= ov.

Let step := chunkStep clock clean mw mc ov pp ps.
Let loop := chunkLoop clock clean mw mc ov pp ps.

Lemma strlen_nonneg (s : jsstring) : 0 <= strlen s.
Proof. unfold strlen; lia. Qed.

(** The chunk of a pass starts at the cursor, and the next cursor is
    its end moved back by the overlap, which is at most [ov]. *)
Lemma chunkStep_spec cur cnt :
  startIndex (fst (step cur cnt)) = cur
  /\ endIndex (fst (step cur cnt)) - 10 * ov
       <= snd (step cur cnt) <= endIndex (fst (step cur cnt)).
Proof.
  unfold step, chunkStep.
  repeat match goal with
         | |- context [if ?b then _ else _] => destruct b
         end; cbn [fst snd startIndex endIndex];
    (split; [reflexivity|]);
    repeat match goal with
           | |- context [strlen ?s] =>
               lazymatch goal with
               | H : 0 <= strlen s |- _ => fail
               | _ => pose proof (strlen_nonneg s)
               end
           end; lia.
Qed.

(** What the loop adds to the chunks it holds: a chain that starts at
    the cursor; when the loop was not left by the cap the chain ends at
    or after the end of the text. *)
Lemma chunkLoop_spec (fuel : nat) :
  forall chunks cur cnt out,
    loop fuel chunks cur cnt = Some out ->
    exists news,
      out = chunks ++ news
      /\ chained (10 * ov) news
      /\ (forall c, hd_error news = Some c -> startIndex c = cur)
      /\ (news = [] -> 10 * strlen clean <= cur)
      /\ ((length out <= 100)%nat -> news <> [] ->
          forall c, 10 * strlen clean <= endIndex (last news c)).
Proof.
  induction fuel as [|fuel IH]; intros chunks cur cnt out Hrun.
  - discriminate.
  - cbn [loop chunkLoop] in Hrun.
    destruct (cur <? 10 * strlen clean) eqn:Hcur.
    + pose proof (chunkStep_spec cur cnt) as [Hs Hn].
      unfold step in Hs, Hn.
      destruct (chunkStep clock clean mw mc ov pp ps cur cnt)
        as [chunk cur'] eqn:Hstep.
      cbn [fst snd] in Hs, Hn.
      destruct ((cur' >=? 10 * strlen clean)
                || (Z.of_nat (length (chunks ++ [chunk])) >? 100)) eqn:Hbrk.
      * injection Hrun as <-.
        exists [chunk]. repeat split.
        -- intros c [= <-]; exact Hs.
        -- discriminate.
        -- intros Hlen _ c. cbn [last].
           apply orb_true_iff in Hbrk as [Hend | Hcap]; zbool; lia.
      * apply orb_false_iff in Hbrk as [Hend Hcap].
        apply IH in Hrun as (news & -> & Hch & Hhd & Hnil & Hlast).
        exists (chunk :: news). rewrite <- app_assoc. repeat split.
        -- destruct news as [|d news']; [exact I|].
           split; [|exact Hch].
           rewrite (Hhd d eq_refl). exact Hn.
        -- intros c [= <-]; exact Hs.
        -- discriminate.
        -- intros Hlen _ c.
           destruct news as [|d news'].
           ++ cbn [last]. specialize (Hnil eq_refl). zbool. lia.
           ++ change (last (chunk :: d :: news') c) with (last (d :: news') c).
              apply Hlast; [|discriminate].
              rewrite <- app_assoc. exact Hlen.
    + injection Hrun as <-. zbool.
      exists []. rewrite app_nil_r. repeat split.
      * discriminate.
      * intros _. exact Hcur.
      * intros _ Hne. now elim Hne.
Qed.

End ChunkLoopCover.

(** A chain leaves no gap between the start of its first chunk and the
    end of its last one. *)
Lemma chained_covered bound (l : list TextChunk) :
  forall first d p,
    chained bound (first :: l) ->
    startIndex first <= p < endIndex (last (first :: l) d) ->
    covered (first :: l) p.
Proof.
  induction l as [|c l IH]; intros first d p Hch Hp.
  - exists first. split; [now left | exact Hp].
  - destruct Hch as [[_ Hlink] Hch].
    destruct (Z_lt_ge_dec p (endIndex first)) as [Hin | Hout].
    + exists first. split; [now left | lia].
    + destruct (IH c d p Hch) as (x & Hx & Hpx).
      * change (last (first :: c :: l) d) with (last (c :: l) d) in Hp. lia.
      * exists x. split; [now right | exact Hpx].
Qed.

Lemma covered_coveredb chunks p :
  covered chunks p -> coveredb chunks p = true.
Proof.
  intros (c & Hin & Hp). unfold coveredb.
  apply existsb_exists. exists c. split; [exact Hin|].
  apply andb_true_iff. split; [apply Z.leb_le | apply Z.ltb_lt]; lia.
Qed.

Lemma strlen_zero_nil (s : jsstring) : strlen s = 0 -> s = [].
Proof. destruct s; [reflexivity | unfold strlen; simpl; lia]. Qed.

(** C3 (evaluation at the failing input).  With [maxChars = 5] and
    [overlap = 5] (so the overlap is not below [maxChars]) the
    ten-character text [abcdefghij] comes back as 101 chunks, one more
    than the cap of 100 the specification states: the loop is left only
    once [chunks.length > 100].  The same happens with the default
    options on a text of 3001 letters: the overlap taken back from the
    end of the last chunk keeps the cursor before the end of the
    text. *)
Theorem chunkText_emits_101_chunks :
  option_map (@length TextChunk)
    (chunkText sampleClock (str "abcdefghij")
       (mkChunkingOptions None (Some 5) (Some 5) None None))
  = Some 101%nat
  /\ option_map (@length TextChunk)
       (chunkText sampleClock (repeat "a"%char 3001) noOptions)
     = Some 101%nat.
Proof. split; vm_compute; reflexivity. Qed.

(** C6 (as amended).  For a text that is not empty after normalization
    and a non-negative [overlap], [chunkText] returns chunks of which
    the first starts at 0, each later one starts at or before the end
    of the one before it and at most [overlap] characters before it,
    so that no position up to the end of the last chunk is left out;
    and when fewer than 101 chunks come back (the loop was not left by
    its cap) they cover the whole normalized text. *)
Theorem chunkText_chain_and_cover clock text options :
  0 <= orDefault (overlap options) 50 ->
  cleanText text <> [] ->
  exists chunks first,
    chunkText clock text options = Some chunks
    /\ hd_error chunks = Some first
    /\ startIndex first = 0
    /\ chained (10 * orDefault (overlap options) 50) chunks
    /\ (forall p, 0 <= p < endIndex (last chunks first) -> covered chunks p)
    /\ ((length chunks <= 100)%nat ->
        coversText chunks (strlen (cleanText text))).
Proof.
  intros Hov Hne.
  unfold chunkText, chunkTextFuel.
  destruct (strlen (cleanText text) =? 0) eqn:Hz.
  { zbool. now apply strlen_zero_nil in Hz. }
  destruct (_ && _).
  - eexists. eexists. split; [reflexivity|].
    split; [reflexivity|]. split; [reflexivity|]. split; [exact I|].
    split.
    + intros p Hp. eexists. split; [now left | exact Hp].
    + intros _ p Hp. eexists. split; [now left | exact Hp].
  - set (ov := orDefault (overlap options) 50) in *.
    destruct (chunkLoop_terminates clock (cleanText text)
                (orDefault (maxWords options) 500)
                (orDefault (maxChars options) 3000) ov
                (orDefault (preserveParagraphs options) true)
                (orDefault (preserveSentences options) true)
                101 [] 0 0) as (out & Hrun & _); [simpl; lia .. |].
    rewrite Hrun.
    destruct (chunkLoop_spec _ _ _ _ _ _ _ Hov _ _ _ _ _ Hrun)
      as (news & Hout & Hch & Hhd & Hnil & Hlast).
    cbn [app] in Hout. subst news.
    destruct out as [|first rest].
    { specialize (Hnil eq_refl). zbool.
      pose proof (strlen_nonneg (cleanText text)). lia. }
    exists (first :: rest), first.
    specialize (Hhd first eq_refl).
    split; [reflexivity|]. split; [reflexivity|]. split; [exact Hhd|].
    split; [exact Hch|]. split.
    + intros p Hp. apply (chained_covered _ _ _ first p Hch). lia.
    + intros Hlen p Hp.
      apply (chained_covered _ _ _ first p Hch).
      specialize (Hlast Hlen ltac:(discriminate) first). lia.
Qed.

(** The theorem at a text of three words cut every five characters
    without overlap. *)
Lemma chunkText_chain_and_cover_witness :
  exists chunks first,
    chunkText sampleClock (str "abcde fghij klmno")
      (mkChunkingOptions None (Some 5) (Some 0) None None) = Some chunks
    /\ hd_error chunks = Some first
    /\ startIndex first = 0
    /\ chained (10 * 0) chunks
    /\ (forall p, 0 <= p < endIndex (last chunks first) -> covered chunks p)
    /\ ((length chunks <= 100)%nat ->
        coversText chunks (strlen (cleanText (str "abcde fghij klmno")))).
Proof.
  apply (chunkText_chain_and_cover sampleClock (str "abcde fghij klmno")
           (mkChunkingOptions None (Some 5) (Some 0) None None)).
  - simpl. lia.
  - vm_compute. discriminate.
Defined.

(** C6 (counterexample).  A text of 102 letters cut one character at a
    time without overlap: the loop is left by its cap after 101 chunks,
    and the last character of the text, at position 101, is in none of
    them. *)
Lemma chunkText_cap_leaves_text_uncovered :
  exists chunks,
    chunkText sampleClock (repeat "a"%char 102)
      (mkChunkingOptions None (Some 1) (Some 0) None None) = Some chunks
    /\ cleanText (repeat "a"%char 102) <> []
    /\ ~ coversText chunks (strlen (cleanText (repeat "a"%char 102))).
Proof.
  eexists. split; [vm_compute; reflexivity|].
  split; [vm_compute; discriminate|].
  intros Hcov.
  assert (Hp : 0 <= 1010 < 10 * strlen (cleanText (repeat "a"%char 102)))
    by (vm_compute; split; [discriminate | reflexivity]).
  apply Hcov, covered_coveredb in Hp.
  vm_compute in Hp. discriminate.
Qed.

(** *** deduplicateChunks *)

Lemma eqb_true_iff (a b : jsstring) : Js.eqb a b = true <-> a = b.
Proof.
  unfold Js.eqb. destruct (list_eq_dec ascii_dec a b); split;
    intros; congruence.
Qed.

Lemma setHas_In (s : list jsstring) (w : jsstring) :
  setHas s w = true <-> In w s.
Proof.
  unfold setHas. rewrite existsb_exists. split.
  - intros (x & Hin & Heq). apply eqb_true_iff in Heq. now subst.
  - intros Hin. exists w. split; [exact Hin | now apply eqb_true_iff].
Qed.


(** Adding distinct new words appends them in order. *)
Lemma addAll_fresh (ws acc : list jsstring) :
  NoDup (acc ++ ws) -> fold_left setAdd ws acc = acc ++ ws.
Proof.
  revert acc. induction ws as [|w ws IH]; intros acc Hnd.
  - now rewrite app_nil_r.
  - cbn [fold_left]. unfold setAdd at 2.
    destruct (setHas acc w) eqn:Hhas.
    + apply setHas_In in Hhas.
      apply NoDup_remove_2 in Hnd. elim Hnd.
      apply in_or_app. now left.
    + rewrite IH; rewrite <- app_assoc; [reflexivity | exact Hnd].
Qed.

Lemma addAll_NoDup (ws acc : list jsstring) :
  NoDup acc -> NoDup (fold_left setAdd ws acc).
Proof.
  revert acc. induction ws as [|w ws IH]; intros acc Hnd; [exact Hnd|].
  cbn [fold_left]. apply IH. unfold setAdd.
  destruct (setHas acc w) eqn:Hhas; [exact Hnd|].
  apply NoDup_app; [exact Hnd | repeat constructor; intros [] | ].
  intros x Hx [<- | []].
  apply setHas_In in Hx. congruence.
Qed.

Lemma addAll_length (ws acc : list jsstring) :
  (length acc <= length (fold_left setAdd ws acc))%nat.
Proof.
  revert acc. induction ws as [|w ws IH]; intros acc; [simpl; lia|].
  cbn [fold_left]. etransitivity; [|apply IH].
  unfold setAdd. destruct (setHas acc w); [lia|].
  rewrite length_app. lia.
Qed.

Lemma newSet_nonempty (ws : list jsstring) :
  ws <> [] -> (1 <= length (newSet ws))%nat.
Proof.
  destruct ws as [|w ws]; [congruence|]. intros _.
  unfold newSet. cbn [fold_left].
  etransitivity; [|apply addAll_length]. simpl. lia.
Qed.

Lemma splitWs_nonempty s : forall inRun word, splitWs inRun word s <> [].
Proof.
  induction s as [|c s IH]; intros inRun word; cbn [splitWs].
  - discriminate.
  - destruct (isWhiteSpace c); [destruct inRun|];
      first [apply IH | discriminate].
Qed.



(** The loop extends the chunks it holds by the scan of the
    specification, started at the last chunk held. *)
Lemma deduplicateLoop_keptAfter (rest : list TextChunk) :
  forall init prev,
    exists kept,
      deduplicateLoop (init ++ [prev]) rest = (init ++ [prev]) ++ kept
      /\ keptAfter prev rest kept.
Proof.
  induction rest as [|c rest IH]; intros init prev.
  - exists []. split; [now rewrite app_nil_r | constructor].
  - cbn [deduplicateLoop]. rewrite last_last.
    fold (below07 c prev).
    destruct (below07 c prev) eqn:Hsim.
    + destruct (IH (init ++ [prev]) c) as (kept & Heq & Hk).
      exists (c :: kept). split; [|now apply kept_keep].
      rewrite Heq, <- app_assoc. reflexivity.
    + destruct (IH init prev) as (kept & Heq & Hk).
      exists kept. split; [exact Heq | now apply kept_remove].
Qed.





(** * Properties of the cache *)

Module CacheFacts.

Import CacheUtil.

Section Facts.

Context {V : Type}.

Implicit Types (c : Cache V) (ls : Storage V) (m : JsMap V)
  (k : string) (e : CacheEntry V).

Lemma mapGet_mapSet m k e : mapGet (mapSet m k e) k = Some e.
Proof.
  induction m as [|[k' e'] m IH]; cbn [mapSet mapGet].
  - now rewrite String.eqb_refl.
  - destruct (String.eqb k' k) eqn:Hk; cbn [mapGet]; rewrite Hk; auto.
Qed.

Lemma getItem_setItem ls k v : getItem (setItem ls k v) k = Some v.
Proof.
  induction ls as [|[k' v'] ls IH]; cbn [setItem getItem].
  - now rewrite String.eqb_refl.
  - destruct (String.eqb k' k) eqn:Hk; cbn [getItem]; rewrite Hk; auto.
Qed.

Lemma isCacheKey_storageKey k : isCacheKey (storageKey k) = true.
Proof. unfold isCacheKey, storageKey. simpl. now destruct k. Qed.

(** [setInMemory] binds the key, whatever it evicts. *)
Lemma mapGet_setInMemory c k e :
  mapGet (memoryCache (setInMemory c k e)) k = Some e.
Proof. unfold setInMemory. cbn [memoryCache withMemory]. apply mapGet_mapSet. Qed.

Lemma options_setInMemory c k e : options (setInMemory c k e) = options c.
Proof. reflexivity. Qed.

(** After a [set] that reaches the backend the cache reads from (the
    memory backend, or an accepted write to the persistent one),
    [lookup] finds the entry just written. *)
Lemma lookup_set c ls accepted now1 now2 k d customTtl :
  storage' (options c) = memory \/ accepted = true ->
  let st := set c ls accepted now1 now2 k d customTtl in
  options (fst st) = options c
  /\ lookup (fst st) (snd st) k
     = Some {| data := d; timestamp := now1;
               expiresAt := now2 + numOr customTtl (ttl' (options c));
               key := k |}.
Proof.
  intros Hreach. unfold set, lookup.
  destruct (storage' (options c)) eqn:Hs; cbn [fst snd].
  - rewrite options_setInMemory, Hs. split; [reflexivity|].
    apply mapGet_setInMemory.
  - destruct Hreach as [Hm | ->]; [discriminate|].
    unfold setInLocalStorage. cbn [fst snd]. rewrite Hs.
    split; [reflexivity|].
    unfold getFromLocalStorage. now rewrite getItem_setItem.
Qed.

(** A write the persistent store rejects changes nothing [get] can
    see: the entry goes to [memoryCache], which a cache configured for
    [localStorage] never reads. *)
Lemma rejected_write_invisible c ls now1 now2 k d customTtl k' :
  storage' (options c) = localStorage ->
  let st := set c ls false now1 now2 k d customTtl in
  snd st = ls
  /\ lookup (fst st) (snd st) k' = lookup c ls k'
  /\ mapGet (memoryCache (fst st)) k <> None.
Proof.
  intros Hs. unfold set, lookup. rewrite Hs.
  unfold setInLocalStorage. cbn [fst snd].
  rewrite options_setInMemory, Hs.
  repeat split. now rewrite mapGet_setInMemory.
Qed.

(** What [get] does with the entry it finds. *)
Lemma get_found c ls now k e :
  lookup c ls k = Some e ->
  get c ls now k
  = if now >? expiresAt e then (delete c ls k, None) else (c, ls, data e).
Proof. intros Hl. unfold get. now rewrite Hl. Qed.

Lemma get_missing c ls now k :
  lookup c ls k = None -> get c ls now k = (c, ls, None).
Proof. intros Hl. unfold get. now rewrite Hl. Qed.

(** [get] leaves the state as it is, or deletes the expired entry it
    has read. *)
Lemma get_state c ls now k :
  fst (get c ls now k)
  = if expiredAt c ls now k then delete c ls k else (c, ls).
Proof.
  unfold get, expiredAt. destruct (lookup c ls k) as [e|]; [|reflexivity].
  now destruct (now >? expiresAt e).
Qed.

(** On the memory backend, and on the persistent one when the write is
    accepted, an entry that is read back before it expires gives the
    payload that was set, and one read after its expiry gives [null]. *)
Lemma set_then_get c ls accepted now1 now2 k d customTtl now :
  storage' (options c) = memory \/ accepted = true ->
  let st := set c ls accepted now1 now2 k d customTtl in
  let expiry := now2 + numOr customTtl (ttl' (options c)) in
  (now <= expiry -> get (fst st) (snd st) now k = (st, d))
  /\ (expiry < now -> snd (get (fst st) (snd st) now k) = None).
Proof.
  intros Hreach st expiry.
  destruct (lookup_set c ls accepted now1 now2 k d customTtl Hreach)
    as [_ Hl].
  fold st in Hl. rewrite (get_found _ _ _ _ _ Hl). cbn [expiresAt data].
  fold expiry. split; intros Ht.
  - destruct (expiry <? now) eqn:Hc; rewrite Z.gtb_ltb, Hc.
    + apply Z.ltb_lt in Hc. lia.
    + now destruct st.
  - apply Z.ltb_lt in Ht. now rewrite Z.gtb_ltb, Ht.
Qed.

(** *** Keys are bound once *)

Lemma mapGet_notin m k : ~ In k (mapKeys m) -> mapGet m k = None.
Proof.
  induction m as [|[k' e'] m IH]; intros Hk; [reflexivity|].
  cbn [mapGet]. destruct (String.eqb k' k) eqn:Heq.
  - apply String.eqb_eq in Heq. elim Hk. now left.
  - apply IH. intros Hin. apply Hk. now right.
Qed.

Lemma mapGet_mapDelete m k :
  NoDup (mapKeys m) -> mapGet (mapDelete m k) k = None.
Proof.
  induction m as [|[k' e'] m IH]; intros Hnd; [reflexivity|].
  cbn [mapKeys map fst] in Hnd. apply NoDup_cons_iff in Hnd as [Hk' Hnd].
  cbn [mapDelete]. destruct (String.eqb k' k) eqn:Heq.
  - apply String.eqb_eq in Heq. subst k'. now apply mapGet_notin.
  - cbn [mapGet]. rewrite Heq. now apply IH.
Qed.

Lemma getItem_notin ls k : ~ In k (storageKeys ls) -> getItem ls k = None.
Proof.
  induction ls as [|[k' v'] ls IH]; intros Hk; [reflexivity|].
  cbn [getItem]. destruct (String.eqb k' k) eqn:Heq.
  - apply String.eqb_eq in Heq. elim Hk. now left.
  - apply IH. intros Hin. apply Hk. now right.
Qed.

Lemma getItem_removeItem ls k :
  NoDup (storageKeys ls) -> getItem (removeItem ls k) k = None.
Proof.
  induction ls as [|[k' v'] ls IH]; intros Hnd; [reflexivity|].
  cbn [storageKeys map fst] in Hnd. apply NoDup_cons_iff in Hnd as [Hk' Hnd].
  cbn [removeItem]. destruct (String.eqb k' k) eqn:Heq.
  - apply String.eqb_eq in Heq. subst k'. now apply getItem_notin.
  - cbn [getItem]. rewrite Heq. now apply IH.
Qed.

(** The lazy eviction of [get]: when the entry it reads has expired,
    [get] returns [null] and the backend has no entry for the key
    afterwards. *)
Lemma get_expired_deletes c ls now k e :
  NoDup (mapKeys (memoryCache c)) ->
  NoDup (storageKeys ls) ->
  lookup c ls k = Some e ->
  expiresAt e < now ->
  let '(c', ls', result) := get c ls now k in
  result = None /\ lookup c' ls' k = None.
Proof.
  intros Hm Hls Hl Hexp. rewrite (get_found _ _ _ _ _ Hl).
  apply Z.ltb_lt in Hexp. rewrite Z.gtb_ltb, Hexp.
  unfold delete, lookup.
  destruct (storage' (options c)) eqn:Hs; cbn [options withMemory memoryCache];
    rewrite ?Hs; (split; [reflexivity|]).
  - now apply mapGet_mapDelete.
  - unfold getFromLocalStorage. now rewrite getItem_removeItem.
Qed.

(** *** clear and getStats on the shared store *)

Lemma removeItem_skip (pre rest : Storage V) k v :
  (forall kv, In kv pre -> isCacheKey (fst kv) = false) ->
  isCacheKey k = true ->
  removeItem (pre ++ (k, v) :: rest) k = pre ++ rest.
Proof.
  intros Hpre Hk. induction pre as [|[k' v'] pre IH]; cbn [app removeItem].
  - now rewrite String.eqb_refl.
  - destruct (String.eqb k' k) eqn:Heq.
    + apply String.eqb_eq in Heq. subst k'.
      specialize (Hpre (k, v') (or_introl eq_refl)). cbn [fst] in Hpre.
      congruence.
    + f_equal. apply IH. intros kv Hin. apply Hpre. now right.
Qed.

(** The [forEach] of [clear] removes every item whose key starts with
    [cache_] and nothing else. *)
Lemma clear_loop (rest : Storage V) :
  forall pre : Storage V,
    (forall kv, In kv pre -> isCacheKey (fst kv) = false) ->
    fold_left (fun ls' k => if isCacheKey k then removeItem ls' k else ls')
      (storageKeys rest) (pre ++ rest)
    = pre ++ filter notCacheKey rest.
Proof.
  induction rest as [|[k v] rest IH]; intros pre Hpre; [reflexivity|].
  cbn [storageKeys map fold_left filter fst]. unfold notCacheKey at 1.
  cbn [fst]. destruct (isCacheKey k) eqn:Hk; cbn [negb].
  - rewrite removeItem_skip by assumption. now apply IH.
  - change (pre ++ (k, v) :: rest) with (pre ++ [(k, v)] ++ rest).
    rewrite app_assoc.
    change (map fst rest) with (storageKeys rest).
    rewrite IH.
    + now rewrite <- app_assoc.
    + intros kv Hin. apply in_app_or in Hin as [Hin | [<- | []]]; auto.
Qed.

Lemma clear_persistent c ls :
  storage' (options c) = localStorage ->
  clear c ls = (c, filter notCacheKey ls).
Proof.
  intros Hs. unfold clear. rewrite Hs. f_equal.
  apply (clear_loop ls []). intros kv [].
Qed.

Lemma getItem_filtered ls k :
  isCacheKey k = true -> getItem (filter notCacheKey ls) k = None.
Proof.
  intros Hk. induction ls as [|[k' v'] ls IH]; [reflexivity|].
  cbn [filter]. unfold notCacheKey at 1. cbn [fst].
  destruct (isCacheKey k') eqn:Hk'; cbn [negb]; [exact IH|].
  cbn [getItem]. destruct (String.eqb k' k) eqn:Heq; [|exact IH].
  apply String.eqb_eq in Heq. congruence.
Qed.

(** After [clear] on one persistent cache no persistent cache finds
    any of its keys: all instances write under the one prefix
    [cache_]. *)
Lemma clear_empties_every_persistent_cache c c' ls k now :
  storage' (options c) = localStorage ->
  storage' (options c') = localStorage ->
  snd (get c' (snd (clear c ls)) now k) = None.
Proof.
  intros Hs Hs'. rewrite (clear_persistent c ls Hs). cbn [snd].
  rewrite get_missing; [reflexivity|].
  unfold lookup. rewrite Hs'. unfold getFromLocalStorage.
  now rewrite getItem_filtered by apply isCacheKey_storageKey.
Qed.

(** *** Capacity of the memory backend *)

Lemma mapSet_fresh m k e :
  ~ In k (mapKeys m) -> mapSet m k e = m ++ [(k, e)].
Proof.
  induction m as [|[k' e'] m IH]; intros Hk; [reflexivity|].
  cbn [mapSet app]. destruct (String.eqb k' k) eqn:Heq.
  - apply String.eqb_eq in Heq. elim Hk. now left.
  - f_equal. apply IH. intros Hin. apply Hk. now right.
Qed.

Lemma mapKeys_app m m' : mapKeys (m ++ m') = mapKeys m ++ mapKeys m'.
Proof. apply map_app. Qed.

(** [setInMemory] with a key that is not bound: at capacity the first
    binding (the oldest) goes and the new one is put last; below
    capacity nothing goes. *)
Lemma setInMemory_fresh c k e :
  ~ In k (mapKeys (memoryCache c)) ->
  memoryCache (setInMemory c k e)
  = (if mapSize (memoryCache c) >=? maxEntries' (options c)
     then tl (memoryCache c) else memoryCache c) ++ [(k, e)].
Proof.
  intros Hk. unfold setInMemory. cbn [memoryCache withMemory].
  destruct (mapSize (memoryCache c) >=? maxEntries' (options c)).
  - destruct (memoryCache c) as [|[k0 e0] m] eqn:Hm; cbn [mapKeys map fst tl].
    + reflexivity.
    + cbn [mapDelete]. rewrite String.eqb_refl.
      apply mapSet_fresh. intros Hin. apply Hk. now right.
  - now apply mapSet_fresh.
Qed.

Lemma set_memory c ls accepted now1 now2 k d customTtl :
  storage' (options c) = memory ->
  set c ls accepted now1 now2 k d customTtl
  = (setInMemory c k
       {| data := d; timestamp := now1;
          expiresAt := now2 + numOr customTtl (ttl' (options c));
          key := k |}, ls).
Proof. intros Hs. unfold set. now rewrite Hs. Qed.

(** A sequence of [set] calls with distinct new keys leaves the last
    [maxEntries] keys, in the order of insertion. *)
Lemma setMany_keys (calls : list (SetCall V)) :
  forall c ls,
    storage' (options c) = memory ->
    1 <= maxEntries' (options c) ->
    mapSize (memoryCache c) <= maxEntries' (options c) ->
    NoDup (mapKeys (memoryCache c) ++ map callKey calls) ->
    let all := mapKeys (memoryCache c) ++ map callKey calls in
    mapKeys (memoryCache (fst (setMany c ls calls)))
    = skipn (length all - Z.to_nat (maxEntries' (options c))) all.
Proof.
  induction calls as [|call calls IH]; intros c ls Hs Hn Hsize Hnd all.
  - subst all. cbn [map setMany fold_left fst] in *. rewrite app_nil_r in *.
    unfold mapSize, mapKeys in *. rewrite length_map.
    replace (length (memoryCache c)
             - Z.to_nat (maxEntries' (options c)))%nat with 0%nat by lia.
    reflexivity.
  - unfold setMany. cbn [fold_left]. unfold setCall at 2. cbn [fst snd].
    rewrite set_memory by exact Hs.
    set (e := {| data := callData call; timestamp := callNow1 call;
                 expiresAt := _; key := callKey call |}).
    set (c' := setInMemory c (callKey call) e).
    assert (Hfresh : ~ In (callKey call) (mapKeys (memoryCache c))).
    { cbn [map] in Hnd. apply NoDup_remove_2 in Hnd.
      intros Hin. apply Hnd. apply in_or_app. now left. }
    pose proof (setInMemory_fresh c (callKey call) e Hfresh) as Hm.
    fold c' in Hm.
    change (fold_left setCall calls (c', ls)) with (setMany c' ls calls).
    assert (Ho : options c' = options c) by reflexivity.
    unfold mapSize in *.
    destruct (Z.of_nat (length (memoryCache c)) >=? maxEntries' (options c))
      eqn:Hfull; zbool.
    + destruct (memoryCache c) as [|[k0 e0] m] eqn:Hmc;
        [cbn [length] in Hfull; lia|].
      cbn [tl] in Hm. cbn [length] in Hsize, Hfull.
      rewrite IH; rewrite ?Ho, ?Hm; try assumption.
      * subst all. rewrite mapKeys_app. cbn [mapKeys map fst app].
        rewrite <- app_assoc. cbn [app].
        set (rest := map fst m ++ callKey call :: map callKey calls).
        assert (Hlen : (Z.to_nat (maxEntries' (options c)) <= length rest)%nat).
        { subst rest. rewrite length_app, length_map. cbn [length]. lia. }
        cbn [length].
        replace (S (length rest) - Z.to_nat (maxEntries' (options c)))%nat
          with (S (length rest - Z.to_nat (maxEntries' (options c))))
          by lia.
        reflexivity.
      * rewrite length_app. cbn [length]. lia.
      * rewrite mapKeys_app. cbn [mapKeys map fst app] in *.
        rewrite <- app_assoc. cbn [app].
        now apply NoDup_cons_iff in Hnd as [_ Hnd].
    + rewrite IH; rewrite ?Ho, ?Hm; try assumption.
      * subst all. rewrite mapKeys_app. cbn [mapKeys map fst app].
        rewrite <- app_assoc. reflexivity.
      * rewrite length_app. cbn [length]. lia.
      * rewrite mapKeys_app. cbn [mapKeys map fst app] in *.
        now rewrite <- app_assoc.
Qed.

End Facts.

(** X22.  Eviction on the memory backend with [maxEntries >= 1]: a
    [set] with a key that is not bound, in a cache that is at
    capacity, removes the oldest binding (the first inserted) and no
    other and puts the new entry last; and [maxEntries + 1] calls of
    [set] with distinct keys on a fresh cache leave exactly
    [maxEntries] keys, all but the first one, in insertion order. *)
Theorem memory_eviction_is_oldest_first {V : Type} :
  (forall (c : Cache V) ls accepted now1 now2 k d customTtl,
      storage' (options c) = memory ->
      1 <= maxEntries' (options c) ->
      maxEntries' (options c) <= mapSize (memoryCache c) ->
      ~ In k (mapKeys (memoryCache c)) ->
      exists oldest others,
        memoryCache c = oldest :: others
        /\ memoryCache (fst (set c ls accepted now1 now2 k d customTtl))
           = others
             ++ [(k, {| data := d; timestamp := now1;
                        expiresAt :=
                          now2 + numOr customTtl (ttl' (options c));
                        key := k |})])
  /\ (forall (o : CacheOptions) (ls : Storage V) (calls : list (SetCall V)),
        storage' (options (newCache (V:=V) o)) = memory ->
        1 <= maxEntries' (options (newCache (V:=V) o)) ->
        NoDup (map callKey calls) ->
        Z.of_nat (length calls)
        = maxEntries' (options (newCache (V:=V) o)) + 1 ->
        let keys := mapKeys (memoryCache (fst (setMany (newCache o) ls calls))) in
        keys = tl (map callKey calls)
        /\ Z.of_nat (length keys) = maxEntries' (options (newCache (V:=V) o))
        /\ forall first, hd_error (map callKey calls) = Some first ->
                         ~ In first keys).
Proof.
  split.
  - intros c ls accepted now1 now2 k d customTtl Hs Hn Hfull Hfresh.
    rewrite set_memory by exact Hs. cbn [fst].
    rewrite setInMemory_fresh by exact Hfresh.
    unfold mapSize in *.
    destruct (memoryCache c) as [|oldest others];
      [cbn [length] in Hfull; lia|].
    exists oldest, others. split; [reflexivity|].
    replace (_ >=? _) with true; [reflexivity|].
    symmetry. rewrite Z.geb_leb. now apply Z.leb_le.
  - intros o ls calls Hs Hn Hnd Hlen keys.
    pose proof (setMany_keys calls (newCache o) ls Hs Hn) as Hk.
    cbn [memoryCache newCache mapKeys map app] in Hk.
    specialize (Hk ltac:(unfold mapSize; cbn [length]; lia) Hnd).
    cbn zeta in Hk.
    change (memoryCache (newCache o)) with (@nil (string * CacheEntry V)) in Hk.
    cbn [mapKeys map app] in Hk.
    assert (Hkeys : keys = tl (map callKey calls)).
    { subst keys. rewrite Hk. rewrite length_map.
      replace (length calls
               - Z.to_nat (maxEntries' (options (newCache (V:=V) o))))%nat
        with 1%nat by lia.
      now destruct (map callKey calls). }
    split; [exact Hkeys|]. split.
    + rewrite Hkeys. destruct calls as [|call calls];
        cbn [map tl length] in *; [lia|]. rewrite length_map. lia.
    + intros first Hfirst. rewrite Hkeys.
      destruct (map callKey calls) as [|k0 ks]; [discriminate|].
      injection Hfirst as ->. cbn [tl].
      now apply NoDup_cons_iff in Hnd as [Hnotin _].
Qed.

(** The theorem at a memory cache of two entries and three keys. *)
Lemma memory_eviction_is_oldest_first_witness :
  mapKeys (memoryCache (fst (setMany smallMemoryCache [] threeCalls)))
  = ["b"; "c"]%string
  /\ exists oldest others,
       memoryCache (fst (setMany smallMemoryCache [] (firstn 2 threeCalls)))
       = oldest :: others
       /\ memoryCache
            (fst (set (fst (setMany smallMemoryCache [] (firstn 2 threeCalls)))
                    [] true 2 2 "c" (Some 3) None))
          = others
            ++ [("c"%string,
                 {| data := Some 3; timestamp := 2;
                    expiresAt := 2 + 30 * 60 * 1000; key := "c" |})].
Proof.
  destruct (@memory_eviction_is_oldest_first Z) as [Hone Hmany].
  split.
  - apply (Hmany (mkCacheOptions None (Some 2) (Some memory)) [] threeCalls).
    + reflexivity.
    + vm_compute. discriminate.
    + vm_compute. repeat constructor; simpl; intuition discriminate.
    + reflexivity.
  - apply (Hone (fst (setMany smallMemoryCache [] (firstn 2 threeCalls)))
             [] true 2 2 "c"%string (Some 3) None).
    + reflexivity.
    + vm_compute. discriminate.
    + vm_compute. discriminate.
    + vm_compute. intuition discriminate.
Defined.

(** C4 (evaluation at the failing input).  A cache on the persistent
    backend with [maxEntries = 2]: after three accepted [set] calls
    with distinct keys all three entries are there, the first one
    included, where the claim has exactly [maxEntries] live keys and
    the first one evicted.  Nothing on that backend looks at
    [maxEntries]; the same three calls on the memory backend leave [b]
    and [c].  And on the memory backend at capacity, with [a] and [b]
    bound, a [set] of the bound key [b] removes [a], where the claim
    has nothing evicted. *)
Theorem persistent_cache_exceeds_maxEntries :
  (let '(c, ls) := setMany smallPersistentCache [] threeCalls in
   maxEntries' (options c) = 2
   /\ getStats c ls = 3
   /\ snd (get c ls 3 "a") = Some 1)
  /\ mapKeys (memoryCache (fst (setMany smallMemoryCache [] threeCalls)))
     = ["b"; "c"]%string
  /\ (let '(c, ls) := setMany smallMemoryCache [] (firstn 2 threeCalls) in
      maxEntries' (options c) = 2
      /\ mapKeys (memoryCache c) = ["a"; "b"]%string
      /\ mapKeys (memoryCache (fst (set c ls true 2 2 "b" (Some 4) None)))
         = ["b"%string]).
Proof. vm_compute. repeat split. Qed.

(** C7 (as amended).  When [get] finds an unexpired value, [getOrSet]
    returns it and the producer is not invoked (the world is the one
    [getOrSet] was entered with, whatever the producer is).  When the
    producer is invoked and fails, its error is the result, and the
    cache is as the initial [get] left it: nothing is written, and the
    only change there can be is the deletion of an expired entry under
    the key. *)
Theorem getOrSet_hit_and_failure {V W E : Type}
  (c : Cache V) (ls : Storage V) (w : W) (now : Z) (accepted : bool)
  (now1 now2 : Z) (k : string) (generator : W -> W * Outcome V E)
  (customTtl : option Z) :
  let result :=
    getOrSet c ls w now accepted now1 now2 k generator customTtl in
  let after_get := if expiredAt c ls now k then delete c ls k else (c, ls) in
  (forall v, snd (get c ls now k) = Some v ->
             result = (after_get, w, Resolved (Some v))
             /\ after_get = (c, ls))
  /\ (forall w' e, snd (get c ls now k) = None ->
                   generator w = (w', Rejected e) ->
                   result = (after_get, w', Rejected e)).
Proof.
  intros result after_get.
  pose proof (get_state c ls now k) as Hst. fold after_get in Hst.
  subst result. unfold getOrSet.
  destruct (get c ls now k) as [[c1 ls1] cached] eqn:Hget.
  cbn [fst snd] in *. split.
  - intros v ->. rewrite Hst. split; [reflexivity|].
    subst after_get. unfold get, expiredAt in *.
    destruct (lookup c ls k) as [e|]; [|discriminate].
    destruct (now >? expiresAt e); [discriminate|]. reflexivity.
  - intros w' e -> Hgen. rewrite Hgen, Hst. reflexivity.
Qed.

(** The theorem at a memory cache that holds [k] until time 1: a hit
    at time 1, and a failing producer at time 10. *)
Lemma getOrSet_hit_and_failure_witness :
  getOrSet (fst cacheWithShortLivedEntry) [] 0%nat 1 true 1 1 "k"
    failingProducer None
  = (cacheWithShortLivedEntry, 0%nat, Resolved (Some 5))
  /\ getOrSet (fst cacheWithShortLivedEntry) [] 0%nat 10 true 10 10 "k"
       failingProducer None
     = (delete (fst cacheWithShortLivedEntry) [] "k", 1%nat,
        Rejected "producer failed"%string).
Proof.
  split.
  - apply (getOrSet_hit_and_failure (fst cacheWithShortLivedEntry) []
             0%nat 1 true 1 1 "k"%string failingProducer None).
    reflexivity.
  - apply (getOrSet_hit_and_failure (fst cacheWithShortLivedEntry) []
             0%nat 10 true 10 10 "k"%string failingProducer None);
      reflexivity.
Defined.

(** C7 (counterexample).  The entry under [k] has expired when
    [getOrSet] is called with a failing producer: the error comes
    back, and the cache is not the one the call started with, because
    the [get] inside has deleted the expired entry. *)
Lemma getOrSet_failure_after_expiry_changes_cache :
  let c := fst cacheWithShortLivedEntry in
  let '(c', ls', w', out) :=
    getOrSet c [] 0%nat 10 true 10 10 "k" failingProducer None in
  out = Rejected "producer failed"%string
  /\ mapKeys (memoryCache c) = ["k"%string]
  /\ mapKeys (memoryCache c') = []
  /\ c' <> c.
Proof.
  vm_compute. repeat split. discriminate.
Qed.

(** X23.  After [set(k, null)] has put its entry into the backend the
    cache reads (the memory backend, or an accepted write to the
    persistent one), and before that entry expires: the entry is
    there, [get] returns [null], which is what it returns for a key
    without entry, and [getOrSet] invokes the producer (its world and
    its outcome are those of the producer). *)
Theorem null_payload_reads_as_miss {V W E : Type}
  (c : Cache V) (ls : Storage V) (accepted : bool) (now1 now2 : Z)
  (k : string) (customTtl : option Z) (now : Z)
  (w : W) (generator : W -> W * Outcome V E)
  (accepted' : bool) (now1' now2' : Z) (customTtl' : option Z) :
  storage' (options c) = memory \/ accepted = true ->
  now <= now2 + numOr customTtl (ttl' (options c)) ->
  let st := set c ls accepted now1 now2 k None customTtl in
  (exists e, lookup (fst st) (snd st) k = Some e
             /\ data e = None /\ now <= expiresAt e)
  /\ get (fst st) (snd st) now k = (st, None)
  /\ (forall (c0 : Cache V) ls0,
        lookup c0 ls0 k = None ->
        snd (get (fst st) (snd st) now k) = snd (get c0 ls0 now k))
  /\ (let '(_, w', out) :=
        getOrSet (fst st) (snd st) w now accepted' now1' now2' k
          generator customTtl' in
      (w', out) = generator w).
Proof.
  intros Hreach Hnow st.
  destruct (lookup_set c ls accepted now1 now2 k None customTtl Hreach)
    as [_ Hl]. fold st in Hl.
  destruct (set_then_get c ls accepted now1 now2 k None customTtl now Hreach)
    as [Hget _]. fold st in Hget. specialize (Hget Hnow).
  split; [eexists; split; [exact Hl | split; [reflexivity | exact Hnow]]|].
  split; [exact Hget|]. split.
  - intros c0 ls0 Hmiss. now rewrite Hget, (get_missing _ _ _ _ Hmiss).
  - unfold getOrSet. rewrite Hget. destruct st as [c1 ls1].
    destruct (generator w) as [w' [d | e]]; [|reflexivity].
    now destruct (set c1 ls1 accepted' now1' now2' k d customTtl').
Qed.

(** The theorem at the PDF cache: [null] is stored under [k] at time
    0 and read at time 5 with a producer that counts its calls. *)
Lemma null_payload_reads_as_miss_witness :
  let st := set (V:=Z) pdfCache [] true 0 0 "k" None None in
  get (fst st) (snd st) 5 "k" = (st, None)
  /\ (let '(_, w', out) :=
        getOrSet (fst st) (snd st) 0%nat 5 true 5 5 "k"
          (countingProducer (Some 8)) None in
      (w', out) = (1%nat, Resolved (Some 8))).
Proof.
  pose proof (null_payload_reads_as_miss (V:=Z) (W:=nat) (E:=string)
                pdfCache [] true 0 0 "k"%string None 5 0%nat
                (countingProducer (Some 8)) true 5 5 None
                (or_intror eq_refl)) as H.
  destruct H as (_ & Hget & _ & Hgen).
  - vm_compute. discriminate.
  - split; [exact Hget | exact Hgen].
Defined.

(** C10 (evaluation at the failing input).  On the persistent backend
    [k] holds the payload 1 (accepted at time 0, one hour to live); a
    [set(k, null)] at time 10 is rejected by the store, so its entry,
    unexpired, goes to [memoryCache] and the store keeps the older
    one.  At time 20 [get(k)] returns 1, where the claim has the
    [null] of a miss (a key without entry does read [null]), and
    [getOrSet] returns 1 without invoking the producer (the world is
    still 0), where the claim has the producer invoked. *)
Theorem rejected_null_write_reads_old_payload :
  let '(c1, ls1) := set (V:=Z) quizCache [] true 0 0 "k" (Some 1) None in
  let '(c2, ls2) := set c1 ls1 false 10 10 "k" None None in
  option_map (fun e => (data e, expiresAt e)) (mapGet (memoryCache c2) "k")
  = Some (None, 10 + 60 * 60 * 1000)
  /\ ls2 = ls1
  /\ get c2 ls2 20 "k" = (c2, ls2, Some 1)
  /\ snd (get c2 ls2 20 "other") = None
  /\ getOrSet c2 ls2 0%nat 20 true 20 20 "k"
       (countingProducer (Some 8)) None
     = (c2, ls2, 0%nat, Resolved (Some 1)).
Proof. vm_compute. repeat split. Qed.

(** C1 (evaluation at the failing input).  The quiz cache and the PDF
    cache share [localStorage] and each holds one entry.  Before
    [clear] the PDF cache reads its entry back and each of the two
    caches reports a size of 2; after [clear] on the quiz cache the
    entry of the PDF cache is gone. *)
Theorem clear_removes_entries_of_other_caches :
  let '(pdf, ls1) :=
    set (V:=Z) pdfCache [] true 0 0 "pdf_report.pdf_204800" (Some 7) None in
  let '(quiz, ls2) :=
    set (V:=Z) quizCache ls1 true 0 0 "quiz_1x2y_{}" (Some 9) None in
  let '(quiz', ls3) := clear quiz ls2 in
  snd (get pdf ls2 1 "pdf_report.pdf_204800") = Some 7
  /\ snd (get pdf ls3 1 "pdf_report.pdf_204800") = None
  /\ getStats quiz ls2 = 2
  /\ getStats pdf ls2 = 2.
Proof. vm_compute. repeat split. Qed.

(** C2 (evaluation at the failing input).  A cache on the persistent
    backend whose write is rejected: [set] does not throw and puts the
    entry into [memoryCache], but the [get] that follows reads
    [localStorage] only and returns [null], where the claim has the
    degraded entry retrievable. *)
Theorem rejected_write_entry_unreachable :
  let '(c1, ls1) :=
    set (V:=Z) quizCache [] false 1000 1000 "k" (Some 42) None in
  mapGet (memoryCache c1) "k"
  = Some {| data := Some 42; timestamp := 1000;
            expiresAt := 1000 + 60 * 60 * 1000; key := "k" |}
  /\ ls1 = []
  /\ get c1 ls1 1001 "k" = (c1, ls1, None).
Proof. vm_compute. repeat split. Qed.

(** C9 (evaluation at the failing input).  [set] followed at once by
    [get] gives the value back on the memory backend and on the
    persistent backend when the write is accepted; when the write is
    rejected the same calls return [null]. *)
Theorem set_get_round_trip_by_backend :
  snd (let '(c1, ls1) :=
         set (V:=Z) apiCache [] true 1000 1000 "k" (Some 42) None in
       get c1 ls1 1000 "k") = Some 42
  /\ snd (let '(c1, ls1) :=
            set (V:=Z) quizCache [] true 1000 1000 "k" (Some 42) None in
          get c1 ls1 1000 "k") = Some 42
  /\ snd (let '(c1, ls1) :=
            set (V:=Z) quizCache [] false 1000 1000 "k" (Some 42) None in
          get c1 ls1 1000 "k") = None.
Proof. vm_compute. repeat split. Qed.

(** C8 (evaluation at the failing input).  On the persistent backend
    a first [set] of [k] is accepted with the default time to live and
    a second one, with a time to live of 1 ms at time 10, is rejected.
    A [get] at time 20, after the expiry of the second entry, returns
    the payload of the first instead of [null], and the expired entry
    stays in [memoryCache]; a [get] at time 10, before the expiry, does
    not return the payload that was set.  With an empty store the
    unexpired [get] returns [null]. *)
Theorem expiry_after_rejected_write :
  let '(c1, ls1) := set (V:=Z) quizCache [] true 0 0 "k" (Some 1) None in
  let '(c2, ls2) := set c1 ls1 false 10 10 "k" (Some 2) (Some 1) in
  let '(c3, ls3) :=
    set (V:=Z) quizCache [] false 10 10 "k" (Some 2) (Some 1) in
  option_map expiresAt (mapGet (memoryCache c2) "k") = Some 11
  /\ get c2 ls2 20 "k" = (c2, ls2, Some 1)
  /\ get c2 ls2 10 "k" = (c2, ls2, Some 1)
  /\ get c3 ls3 10 "k" = (c3, ls3, None).
Proof. vm_compute. repeat split. Qed.

End CacheFacts.

(** * Further properties of the cache *)

Module CacheMore.

Import CacheUtil CacheFacts.

Section More.

Context {V : Type}.

Implicit Types (c : Cache V) (ls : Storage V) (m : JsMap V)
  (k : string) (e : CacheEntry V).

Lemma storageKey_inj k k' : storageKey k = storageKey k' -> k = k'.
Proof. unfold storageKey. cbn. now intros [= ->]. Qed.

Lemma mapGet_mapDelete_other m k k' :
  k' <> k -> mapGet (mapDelete m k) k' = mapGet m k'.
Proof.
  intros Hne. induction m as [|[k0 e0] m IH]; [reflexivity|].
  cbn [mapDelete mapGet]. destruct (String.eqb k0 k) eqn:Hk.
  - apply String.eqb_eq in Hk. subst k0.
    destruct (String.eqb k k') eqn:Hk'; [|reflexivity].
    apply String.eqb_eq in Hk'. congruence.
  - cbn [mapGet]. now rewrite IH.
Qed.

Lemma getItem_removeItem_other ls k k' :
  k' <> k -> getItem (removeItem ls k) k' = getItem ls k'.
Proof.
  intros Hne. induction ls as [|[k0 v0] ls IH]; [reflexivity|].
  cbn [removeItem getItem]. destruct (String.eqb k0 k) eqn:Hk.
  - apply String.eqb_eq in Hk. subst k0.
    destruct (String.eqb k k') eqn:Hk'; [|reflexivity].
    apply String.eqb_eq in Hk'. congruence.
  - cbn [getItem]. now rewrite IH.
Qed.

Lemma mapGet_mapSet_other m k k' e :
  k' <> k -> mapGet (mapSet m k e) k' = mapGet m k'.
Proof.
  intros Hne. induction m as [|[k0 e0] m IH]; cbn [mapSet mapGet].
  - destruct (String.eqb k k') eqn:Hk'; [|reflexivity].
    apply String.eqb_eq in Hk'. congruence.
  - destruct (String.eqb k0 k) eqn:Hk; cbn [mapGet].
    + apply String.eqb_eq in Hk. subst k0.
      destruct (String.eqb k k') eqn:Hk'; [|reflexivity].
      apply String.eqb_eq in Hk'. congruence.
    + now rewrite IH.
Qed.

Lemma getItem_setItem_other ls k k' v :
  k' <> k -> getItem (setItem ls k v) k' = getItem ls k'.
Proof.
  intros Hne. induction ls as [|[k0 v0] ls IH]; cbn [setItem getItem].
  - destruct (String.eqb k k') eqn:Hk'; [|reflexivity].
    apply String.eqb_eq in Hk'. congruence.
  - destruct (String.eqb k0 k) eqn:Hk; cbn [getItem].
    + apply String.eqb_eq in Hk. subst k0.
      destruct (String.eqb k k') eqn:Hk'; [|reflexivity].
      apply String.eqb_eq in Hk'. congruence.
    + now rewrite IH.
Qed.

(** [delete] leaves the entries of the other keys where they are. *)
Lemma lookup_delete_other c ls k k' :
  k' <> k ->
  lookup (fst (delete c ls k)) (snd (delete c ls k)) k' = lookup c ls k'.
Proof.
  intros Hne. unfold delete, lookup.
  destruct (storage' (options c)) eqn:Hs; cbn [fst snd options withMemory memoryCache];
    rewrite Hs.
  - now apply mapGet_mapDelete_other.
  - unfold getFromLocalStorage. rewrite getItem_removeItem_other; [reflexivity|].
    intros Heq. apply Hne. now apply storageKey_inj.
Qed.

Lemma lookup_delete_same c ls k :
  NoDup (mapKeys (memoryCache c)) ->
  NoDup (storageKeys ls) ->
  lookup (fst (delete c ls k)) (snd (delete c ls k)) k = None.
Proof.
  intros Hm Hls. unfold delete, lookup.
  destruct (storage' (options c)) eqn:Hs; cbn [fst snd options withMemory memoryCache];
    rewrite Hs.
  - now apply mapGet_mapDelete.
  - unfold getFromLocalStorage. now rewrite getItem_removeItem.
Qed.

(** *** Capacity *)

Lemma mapSet_length m k e : (length (mapSet m k e) <= S (length m))%nat.
Proof.
  induction m as [|[k0 e0] m IH]; cbn [mapSet length]; [lia|].
  destruct (String.eqb k0 k); cbn [length]; lia.
Qed.

Lemma setInMemory_within_capacity c k e :
  1 <= maxEntries' (options c) ->
  mapSize (memoryCache c) <= maxEntries' (options c) ->
  mapSize (memoryCache (setInMemory c k e)) <= maxEntries' (options c).
Proof.
  intros Hn Hsize. unfold setInMemory, mapSize in *.
  cbn [memoryCache withMemory].
  pose proof (mapSet_length (memoryCache c) k e) as Hle.
  destruct (Z.of_nat (length (memoryCache c)) >=? maxEntries' (options c))
    eqn:Hfull; zbool; [|lia].
  destruct (memoryCache c) as [|[k0 e0] m]; cbn [mapKeys map fst length] in *;
    [lia|].
  cbn [mapDelete]. rewrite String.eqb_refl.
  pose proof (mapSet_length m k e). lia.
Qed.

Lemma setMany_within_capacity (calls : list (SetCall V)) :
  forall c ls,
    storage' (options c) = memory ->
    1 <= maxEntries' (options c) ->
    mapSize (memoryCache c) <= maxEntries' (options c) ->
    options (fst (setMany c ls calls)) = options c
    /\ mapSize (memoryCache (fst (setMany c ls calls)))
       <= maxEntries' (options c).
Proof.
  induction calls as [|call calls IH]; intros c ls Hs Hn Hsize.
  - split; [reflexivity | exact Hsize].
  - unfold setMany. cbn [fold_left].
    assert (Hcall : exists e,
               setCall (c, ls) call = (setInMemory c (callKey call) e, ls)).
    { unfold setCall. cbn [fst snd]. rewrite set_memory by exact Hs.
      now eexists. }
    destruct Hcall as [e ->].
    pose proof (setInMemory_within_capacity c (callKey call) e Hn Hsize)
      as Hstep.
    set (c' := setInMemory c (callKey call) e) in *.
    change (fold_left setCall calls (c', ls)) with (setMany c' ls calls).
    assert (Ho : options c' = options c) by reflexivity.
    assert (Hs' : storage' (options c') = memory) by (rewrite Ho; exact Hs).
    assert (Hn' : 1 <= maxEntries' (options c')) by (rewrite Ho; exact Hn).
    assert (Hsize' : mapSize (memoryCache c') <= maxEntries' (options c'))
      by (rewrite Ho; exact Hstep).
    destruct (IH c' ls Hs' Hn' Hsize') as [Ho' Hsz].
    rewrite Ho in Ho', Hsz. split; assumption.
Qed.

(** *** The sweep *)

Lemma mapDelete_skip (pre rest : JsMap V) k e :
  ~ In k (mapKeys pre) ->
  mapDelete (pre ++ (k, e) :: rest) k = pre ++ rest.
Proof.
  intros Hk. induction pre as [|[k0 e0] pre IH]; cbn [app mapDelete].
  - now rewrite String.eqb_refl.
  - destruct (String.eqb k0 k) eqn:Heq.
    + apply String.eqb_eq in Heq. elim Hk. now left.
    + f_equal. apply IH. intros Hin. apply Hk. now right.
Qed.

Lemma removeItem_skip_notin (pre rest : Storage V) k v :
  ~ In k (storageKeys pre) ->
  removeItem (pre ++ (k, v) :: rest) k = pre ++ rest.
Proof.
  intros Hk. induction pre as [|[k0 v0] pre IH]; cbn [app removeItem].
  - now rewrite String.eqb_refl.
  - destruct (String.eqb k0 k) eqn:Heq.
    + apply String.eqb_eq in Heq. elim Hk. now left.
    + f_equal. apply IH. intros Hin. apply Hk. now right.
Qed.

Lemma getItem_skip (pre rest : Storage V) k v :
  ~ In k (storageKeys pre) ->
  getItem (pre ++ (k, v) :: rest) k = Some v.
Proof.
  intros Hk. induction pre as [|[k0 v0] pre IH]; cbn [app getItem].
  - now rewrite String.eqb_refl.
  - destruct (String.eqb k0 k) eqn:Heq.
    + apply String.eqb_eq in Heq. elim Hk. now left.
    + apply IH. intros Hin. apply Hk. now right.
Qed.

Lemma NoDup_app_head {A} (pre : list A) x rest :
  NoDup (pre ++ x :: rest) -> ~ In x pre /\ NoDup (pre ++ rest).
Proof.
  intros Hnd. split.
  - apply NoDup_remove_2 in Hnd. intros Hin. apply Hnd.
    apply in_or_app. now left.
  - now apply NoDup_remove_1 in Hnd.
Qed.

(** The memory branch of the sweep keeps the bindings that have not
    expired. *)
Lemma sweep_memory_loop now (rest : JsMap V) :
  forall pre : JsMap V,
    NoDup (mapKeys (pre ++ rest)) ->
    fold_left
      (fun m (binding : string * CacheEntry V) =>
         if expiresAt (snd binding) <? now
         then mapDelete m (fst binding) else m)
      rest (pre ++ rest)
    = pre ++ filter (liveBinding now) rest.
Proof.
  induction rest as [|[k e] rest IH]; intros pre Hnd; [reflexivity|].
  cbn [fold_left filter fst snd]. unfold liveBinding at 1. cbn [snd].
  unfold mapKeys in Hnd. rewrite map_app in Hnd. cbn [map fst] in Hnd.
  destruct (NoDup_app_head _ _ _ Hnd) as [Hk Hnd'].
  destruct (expiresAt e <? now); cbn [negb].
  - rewrite mapDelete_skip by exact Hk.
    apply IH. unfold mapKeys. now rewrite map_app.
  - change (pre ++ (k, e) :: rest) with (pre ++ [(k, e)] ++ rest).
    rewrite app_assoc, IH.
    + now rewrite <- app_assoc.
    + unfold mapKeys. rewrite <- app_assoc, map_app. exact Hnd.
Qed.

(** The persistent branch keeps what is not under the prefix, and
    under it the entries that can be read and have not expired. *)
Lemma sweep_storage_loop now (rest : Storage V) :
  forall pre : Storage V,
    NoDup (storageKeys (pre ++ rest)) ->
    fold_left
      (fun ls' k =>
         if isCacheKey k then
           match getItem ls' k with
           | Some (JsonOf entry) =>
               if expiresAt entry <? now then removeItem ls' k else ls'
           | _ => removeItem ls' k
           end
         else ls')
      (storageKeys rest) (pre ++ rest)
    = pre ++ filter (sweptItem now) rest.
Proof.
  induction rest as [|[k v] rest IH]; intros pre Hnd; [reflexivity|].
  cbn [storageKeys map fold_left filter fst]. unfold sweptItem at 1.
  cbn [fst snd].
  unfold storageKeys in Hnd. rewrite map_app in Hnd. cbn [map fst] in Hnd.
  destruct (NoDup_app_head _ _ _ Hnd) as [Hk Hnd'].
  assert (Hdrop : fold_left
      (fun ls' k0 =>
         if isCacheKey k0 then
           match getItem ls' k0 with
           | Some (JsonOf entry) =>
               if expiresAt entry <? now then removeItem ls' k0 else ls'
           | _ => removeItem ls' k0
           end
         else ls')
      (map fst rest) (pre ++ rest) = pre ++ filter (sweptItem now) rest).
  { apply IH. unfold storageKeys. now rewrite map_app. }
  assert (Hkeep : fold_left
      (fun ls' k0 =>
         if isCacheKey k0 then
           match getItem ls' k0 with
           | Some (JsonOf entry) =>
               if expiresAt entry <? now then removeItem ls' k0 else ls'
           | _ => removeItem ls' k0
           end
         else ls')
      (map fst rest) (pre ++ (k, v) :: rest)
      = pre ++ (k, v) :: filter (sweptItem now) rest).
  { change (pre ++ (k, v) :: rest) with (pre ++ [(k, v)] ++ rest).
    rewrite app_assoc.
    change (map fst rest) with (storageKeys rest). rewrite IH.
    - now rewrite <- app_assoc.
    - unfold storageKeys. rewrite <- app_assoc, map_app. exact Hnd. }
  destruct (isCacheKey k); [|exact Hkeep].
  rewrite getItem_skip by exact Hk.
  destruct v as [entry | other].
  - destruct (expiresAt entry <? now); cbn [negb].
    + rewrite removeItem_skip_notin by exact Hk. exact Hdrop.
    + exact Hkeep.
  - rewrite removeItem_skip_notin by exact Hk. exact Hdrop.
Qed.

Lemma cleanup_filters c ls now :
  NoDup (mapKeys (memoryCache c)) ->
  NoDup (storageKeys ls) ->
  cleanup c ls now
  = match storage' (options c) with
    | localStorage => (c, filter (sweptItem now) ls)
    | memory =>
        (withMemory c (filter (liveBinding now) (memoryCache c)), ls)
    end.
Proof.
  intros Hm Hls. unfold cleanup. destruct (storage' (options c)).
  - f_equal. f_equal. now apply (sweep_memory_loop now (memoryCache c) []).
  - f_equal. now apply (sweep_storage_loop now ls []).
Qed.

Lemma mapGet_filter_live now m k :
  NoDup (mapKeys m) ->
  mapGet (filter (liveBinding now) m) k
  = match mapGet m k with
    | Some e => if expiresAt e <? now then None else Some e
    | None => None
    end.
Proof.
  induction m as [|[k0 e0] m IH]; intros Hnd; [reflexivity|].
  cbn [mapKeys map fst] in Hnd. apply NoDup_cons_iff in Hnd as [Hk0 Hnd].
  cbn [filter mapGet]. unfold liveBinding at 1. cbn [snd].
  destruct (String.eqb k0 k) eqn:Hk.
  - apply String.eqb_eq in Hk. subst k0.
    destruct (expiresAt e0 <? now); cbn [negb mapGet].
    + apply mapGet_notin. intros Hin. apply Hk0.
      unfold mapKeys in *. apply in_map_iff in Hin as (b & Hb & Hin).
      apply filter_In in Hin as [Hin _]. apply in_map_iff. now exists b.
    + now rewrite String.eqb_refl.
  - destruct (expiresAt e0 <? now); cbn [negb mapGet]; rewrite ?Hk; now apply IH.
Qed.

Lemma getItem_filter_swept now ls key :
  NoDup (storageKeys ls) ->
  getItem (filter (sweptItem now) ls) key
  = match getItem ls key with
    | Some v => if sweptItem now (key, v) then Some v else None
    | None => None
    end.
Proof.
  induction ls as [|[k0 v0] ls IH]; intros Hnd; [reflexivity|].
  cbn [storageKeys map fst] in Hnd. apply NoDup_cons_iff in Hnd as [Hk0 Hnd].
  cbn [filter getItem].
  destruct (String.eqb k0 key) eqn:Hk.
  - apply String.eqb_eq in Hk. subst k0.
    destruct (sweptItem now (key, v0)); cbn [getItem].
    + now rewrite String.eqb_refl.
    + apply getItem_notin. intros Hin. apply Hk0.
      unfold storageKeys in *. apply in_map_iff in Hin as (b & Hb & Hin).
      apply filter_In in Hin as [Hin _]. apply in_map_iff. now exists b.
  - destruct (sweptItem now (k0, v0)); cbn [getItem]; rewrite ?Hk; now apply IH.
Qed.

(** The entry the cache finds for a key after the sweep. *)
Lemma lookup_cleanup c ls now k :
  NoDup (mapKeys (memoryCache c)) ->
  NoDup (storageKeys ls) ->
  lookup (fst (cleanup c ls now)) (snd (cleanup c ls now)) k
  = match lookup c ls k with
    | Some e => if expiresAt e <? now then None else Some e
    | None => None
    end.
Proof.
  intros Hm Hls. rewrite cleanup_filters by assumption. unfold lookup.
  destruct (storage' (options c)) eqn:Hs;
    cbn [fst snd options withMemory memoryCache]; rewrite Hs.
  - now apply mapGet_filter_live.
  - unfold getFromLocalStorage. rewrite getItem_filter_swept by exact Hls.
    destruct (getItem ls (storageKey k)) as [[e | other]|]; try reflexivity.
    + unfold sweptItem. cbn [fst snd]. rewrite isCacheKey_storageKey.
      now destruct (expiresAt e <? now).
    + now destruct (sweptItem now (storageKey k, OtherText other)).
Qed.

(** *** clear *)

Lemma filter_notCacheKey_keys ls :
  filter isCacheKey (storageKeys (filter notCacheKey ls)) = [].
Proof.
  induction ls as [|[k0 v0] ls IH]; [reflexivity|].
  cbn [filter]. unfold notCacheKey at 1. cbn [fst].
  destruct (isCacheKey k0) eqn:Hk; cbn [negb]; [exact IH|].
  cbn [storageKeys map fst filter]. rewrite Hk. exact IH.
Qed.

Lemma getItem_filter_notCacheKey ls key :
  isCacheKey key = false ->
  getItem (filter notCacheKey ls) key = getItem ls key.
Proof.
  intros Hkey. induction ls as [|[k0 v0] ls IH]; [reflexivity|].
  cbn [filter]. unfold notCacheKey at 1. cbn [fst].
  destruct (isCacheKey k0) eqn:Hk; cbn [negb getItem].
  - destruct (String.eqb k0 key) eqn:Heq; [|exact IH].
    apply String.eqb_eq in Heq. congruence.
  - now rewrite IH.
Qed.

Lemma options_get c ls now k :
  options (fst (fst (get c ls now k))) = options c.
Proof.
  unfold get. destruct (lookup c ls k) as [e|]; [|reflexivity].
  destruct (now >? expiresAt e); [|reflexivity].
  unfold delete. now destruct (storage' (options c)).
Qed.

End More.

(** X1.  After [delete(key)] a [get(key)] returns [null], at any
    time, and every other key reads exactly as it did before: the same
    entry is found, so [get] gives the same result for it.  (Keys are
    bound once in a [Map] and in [localStorage].) *)
Theorem delete_removes_only_its_key {V : Type}
  (c : Cache V) (ls : Storage V) (k : string) (now : Z) :
  NoDup (mapKeys (memoryCache c)) ->
  NoDup (storageKeys ls) ->
  let '(c', ls') := delete c ls k in
  snd (get c' ls' now k) = None
  /\ forall k', k' <> k ->
       lookup c' ls' k' = lookup c ls k'
       /\ snd (get c' ls' now k') = snd (get c ls now k').
Proof.
  intros Hm Hls.
  pose proof (lookup_delete_same c ls k Hm Hls) as Hsame.
  pose proof (lookup_delete_other c ls k) as Hother.
  destruct (delete c ls k) as [c' ls']. cbn [fst snd] in *.
  split.
  - now rewrite (get_missing _ _ _ _ Hsame).
  - intros k' Hne. specialize (Hother k' Hne). split; [exact Hother|].
    unfold get. rewrite Hother.
    destruct (lookup c ls k') as [e|]; [|reflexivity].
    now destruct (now >? expiresAt e).
Qed.

(** The theorem at a memory cache that holds [a] and [b]. *)
Lemma delete_removes_only_its_key_witness :
  let c := fst (setMany smallMemoryCache [] (firstn 2 threeCalls)) in
  let '(c', ls') := delete c [] "a" in
  snd (get c' ls' 5 "a") = None
  /\ forall k', k' <> "a"%string ->
       lookup c' ls' k' = lookup c [] k'
       /\ snd (get c' ls' 5 k') = snd (get c [] 5 k').
Proof.
  apply (delete_removes_only_its_key
           (fst (setMany smallMemoryCache [] (firstn 2 threeCalls)))
           [] "a"%string 5).
  - vm_compute. repeat constructor; simpl; intuition discriminate.
  - constructor.
Defined.

(** X2.  The memory backend never holds more than [maxEntries]
    entries: a cache that is within its capacity stays within it after
    any sequence of [set] calls, whatever the keys are (new, repeated,
    or already bound), provided [maxEntries >= 1]. *)
Theorem memory_cache_stays_within_capacity {V : Type}
  (c : Cache V) (ls : Storage V) (calls : list (SetCall V)) :
  storage' (options c) = memory ->
  1 <= maxEntries' (options c) ->
  mapSize (memoryCache c) <= maxEntries' (options c) ->
  getStats (fst (setMany c ls calls)) (snd (setMany c ls calls))
  <= maxEntries' (options c).
Proof.
  intros Hs Hn Hsize.
  destruct (setMany_within_capacity calls c ls Hs Hn Hsize) as [Ho Hsz].
  unfold getStats. now rewrite Ho, Hs.
Qed.

(** The theorem at a fresh cache of two entries and four calls, one
    of them with a key that is bound already. *)
Lemma memory_cache_stays_within_capacity_witness :
  getStats
    (fst (setMany smallMemoryCache []
            (threeCalls ++ [mkSetCall true 3 3 "b" (Some 4) None])))
    (snd (setMany smallMemoryCache []
            (threeCalls ++ [mkSetCall true 3 3 "b" (Some 4) None])))
  <= 2.
Proof.
  apply (memory_cache_stays_within_capacity smallMemoryCache []
           (threeCalls ++ [mkSetCall true 3 3 "b"%string (Some 4) None])).
  - reflexivity.
  - vm_compute. discriminate.
  - vm_compute. discriminate.
Defined.

(** X3.  [set(key, ...)] leaves every other key as it is when the
    write is accepted by the persistent store, and on the memory
    backend when the cache is below its capacity; on the memory backend
    at capacity the only other key that is touched is the oldest one,
    which is evicted. *)
Theorem set_leaves_other_keys {V : Type}
  (c : Cache V) (ls : Storage V) (accepted : bool) (now1 now2 : Z)
  (k : string) (d : option V) (customTtl : option Z) (k' : string) :
  k' <> k ->
  (storage' (options c) = localStorage /\ accepted = true)
  \/ (storage' (options c) = memory
      /\ (mapSize (memoryCache c) < maxEntries' (options c)
          \/ hd_error (mapKeys (memoryCache c)) <> Some k')) ->
  let st := set c ls accepted now1 now2 k d customTtl in
  lookup (fst st) (snd st) k' = lookup c ls k'.
Proof.
  intros Hne Hcase st. subst st. unfold set, lookup.
  destruct Hcase as [[Hs ->] | [Hs Hroom]]; rewrite Hs.
  - unfold setInLocalStorage. cbn [fst snd]. rewrite Hs.
    unfold getFromLocalStorage. rewrite getItem_setItem_other; [reflexivity|].
    intros Heq. apply Hne. now apply storageKey_inj.
  - cbn [fst snd]. rewrite options_setInMemory, Hs.
    unfold setInMemory. cbn [memoryCache withMemory].
    rewrite mapGet_mapSet_other by exact Hne.
    destruct (mapSize (memoryCache c) >=? maxEntries' (options c)) eqn:Hfull;
      [|reflexivity].
    destruct (memoryCache c) as [|[k0 e0] m]; [reflexivity|].
    cbn [mapKeys map fst hd_error] in *.
    apply mapGet_mapDelete_other.
    destruct Hroom as [Hlt | Hhd]; [zbool; lia | congruence].
Qed.

(** The theorem at an accepted write to the store that holds the
    entry of another key. *)
Lemma set_leaves_other_keys_witness :
  let ls := snd (set (V:=Z) pdfCache [] true 0 0 "a" (Some 1) None) in
  let st := set (V:=Z) quizCache ls true 1 1 "b" (Some 2) None in
  lookup (fst st) (snd st) "a" = lookup (V:=Z) quizCache ls "a".
Proof.
  apply (set_leaves_other_keys (V:=Z) quizCache
           (snd (set (V:=Z) pdfCache [] true 0 0 "a"%string (Some 1) None))
           true 1 1 "b"%string (Some 2) None "a"%string).
  - discriminate.
  - left. split; reflexivity.
Defined.

(** X4.  The sweep removes what a read at the same instant would
    treat as absent, and nothing else: after [cleanup] at time [now]
    every [get] at time [now] returns what it returned before, no entry
    the cache can find has expired, and no item outside the prefix
    [cache_] is touched.  (Keys are bound once in a [Map] and in
    [localStorage].) *)
Theorem cleanup_removes_exactly_the_expired {V : Type}
  (c : Cache V) (ls : Storage V) (now : Z) :
  NoDup (mapKeys (memoryCache c)) ->
  NoDup (storageKeys ls) ->
  let '(c', ls') := cleanup c ls now in
  (forall k, snd (get c' ls' now k) = snd (get c ls now k))
  /\ (forall k e, lookup c' ls' k = Some e -> now <= expiresAt e)
  /\ (forall key, isCacheKey key = false -> getItem ls' key = getItem ls key).
Proof.
  intros Hm Hls.
  pose proof (lookup_cleanup c ls now) as Hl.
  pose proof (cleanup_filters c ls now Hm Hls) as Hf.
  destruct (cleanup c ls now) as [c' ls']. cbn [fst snd] in Hl.
  split; [|split].
  - intros k. unfold get. rewrite (Hl k Hm Hls).
    destruct (lookup c ls k) as [e|]; [|reflexivity].
    rewrite Z.gtb_ltb.
    destruct (expiresAt e <? now) eqn:Hexp; [reflexivity|].
    now rewrite Z.gtb_ltb, Hexp.
  - intros k e. rewrite (Hl k Hm Hls).
    destruct (lookup c ls k) as [e0|]; [|discriminate].
    destruct (expiresAt e0 <? now) eqn:Hexp; [discriminate|].
    intros [= <-]. zbool. lia.
  - intros key Hkey.
    destruct (storage' (options c)); injection Hf as _ ->; [reflexivity|].
    rewrite getItem_filter_swept by exact Hls.
    destruct (getItem ls key) as [v|]; [|reflexivity].
    unfold sweptItem. cbn [fst]. now rewrite Hkey.
Qed.

(** The theorem at a store with an expired entry, a live one, an
    unreadable one and an item of another application. *)
Lemma cleanup_removes_exactly_the_expired_witness :
  let '(c', ls') := cleanup (V:=Z) quizCache sweepStore 100 in
  (forall k, snd (get c' ls' 100 k) = snd (get quizCache sweepStore 100 k))
  /\ (forall k e, lookup c' ls' k = Some e -> 100 <= expiresAt e)
  /\ (forall key, isCacheKey key = false ->
                  getItem ls' key = getItem sweepStore key).
Proof.
  apply (cleanup_removes_exactly_the_expired (V:=Z) quizCache sweepStore 100).
  - constructor.
  - vm_compute. repeat constructor; simpl; intuition discriminate.
Defined.

(** X5.  [getOrSet] memoizes: when the key is missed, the producer
    resolves to a value that is not [null] and the write reaches the
    backend the cache reads (memory backend, or accepted persistent
    write), the value is returned and stored, and until the entry
    expires every later [getOrSet] for the key returns that value
    without invoking its producer and without changing the cache. *)
Theorem getOrSet_memoizes {V W E : Type}
  (c : Cache V) (ls : Storage V) (w : W) (now : Z) (accepted : bool)
  (now1 now2 : Z) (k : string) (generator : W -> W * Outcome V E)
  (customTtl : option Z) (w1 : W) (v : V) :
  storage' (options c) = memory \/ accepted = true ->
  snd (get c ls now k) = None ->
  generator w = (w1, Resolved (Some v)) ->
  exists c2 ls2,
    getOrSet c ls w now accepted now1 now2 k generator customTtl
    = (c2, ls2, w1, Resolved (Some v))
    /\ forall (w' : W) now' accepted' now1' now2'
         (generator' : W -> W * Outcome V E) customTtl',
        now' <= now2 + numOr customTtl (ttl' (options c)) ->
        getOrSet c2 ls2 w' now' accepted' now1' now2' k generator' customTtl'
        = (c2, ls2, w', Resolved (Some v)).
Proof.
  intros Hreach Hmiss Hgen.
  pose proof (options_get c ls now k) as Ho.
  unfold getOrSet at 1.
  destruct (get c ls now k) as [[c1 ls1] cached]. cbn [fst snd] in *.
  subst cached. rewrite Hgen.
  assert (Hreach1 : storage' (options c1) = memory \/ accepted = true)
    by (rewrite Ho; exact Hreach).
  pose proof (set_then_get c1 ls1 accepted now1 now2 k (Some v) customTtl)
    as Hget.
  destruct (set c1 ls1 accepted now1 now2 k (Some v) customTtl)
    as [c2 ls2] eqn:Hset.
  exists c2, ls2. split; [reflexivity|].
  intros w' now' accepted' now1' now2' generator' customTtl' Hnow.
  destruct (Hget now' Hreach1) as [Hhit _]. cbn [fst snd] in Hhit.
  rewrite Ho in Hhit. specialize (Hhit Hnow).
  unfold getOrSet. now rewrite Hhit.
Qed.

(** The theorem at the API cache: the second call comes with a
    producer that fails, and is answered from the cache. *)
Lemma getOrSet_memoizes_witness :
  exists c2 ls2,
    getOrSet (V:=Z) apiCache [] 0%nat 0 true 0 0 "k"
      (countingProducer (Some 8)) None
    = (c2, ls2, 1%nat, Resolved (Some 8))
    /\ getOrSet c2 ls2 1%nat 5 true 5 5 "k" failingProducer None
       = (c2, ls2, 1%nat, Resolved (Some 8)).
Proof.
  destruct (getOrSet_memoizes (V:=Z) apiCache [] 0%nat 0 true 0 0
              "k"%string (countingProducer (Some 8)) None 1%nat 8
              (or_introl eq_refl) eq_refl eq_refl)
    as (c2 & ls2 & Hfirst & Hlater).
  exists c2, ls2. split; [exact Hfirst|].
  apply Hlater. vm_compute. discriminate.
Defined.

(** X6.  After [clear()] on a cache of the persistent backend
    [getStats().size] is 0 and the items of [localStorage] whose key
    does not start with [cache_] are all still there; after [clear()]
    on a cache of the memory backend its size is 0, every [get] returns
    [null] and [localStorage] is as it was. *)
Theorem clear_empties_and_spares_foreign_items {V : Type}
  (c : Cache V) (ls : Storage V) :
  let '(c', ls') := clear c ls in
  getStats c' ls' = 0
  /\ (forall key, isCacheKey key = false -> getItem ls' key = getItem ls key)
  /\ (forall now k, snd (get c' ls' now k) = None)
  /\ (storage' (options c) = memory -> ls' = ls).
Proof.
  destruct (storage' (options c)) eqn:Hs.
  - unfold clear. rewrite Hs. unfold getStats, get, lookup.
    cbn [options withMemory memoryCache]. rewrite Hs.
    repeat split.
  - rewrite (clear_persistent c ls Hs). unfold getStats, get, lookup.
    rewrite Hs. split; [|split; [|split]].
    + now rewrite filter_notCacheKey_keys.
    + intros key Hkey. now apply getItem_filter_notCacheKey.
    + intros now k. unfold getFromLocalStorage.
      now rewrite getItem_filtered by apply isCacheKey_storageKey.
    + discriminate.
Qed.

End CacheMore.

(** * Further properties of the chunker *)

Module ChunkerMore.

(** *** Normalization *)

Lemma isWhiteSpace_SPACE : isWhiteSpace SPACE = true.
Proof. reflexivity. Qed.

Lemma replaceWhiteSpaceRuns_singleSpaced s :
  forall inRun, singleSpaced inRun (replaceWhiteSpaceRuns inRun s).
Proof.
  induction s as [|c s IH]; intros inRun; cbn [replaceWhiteSpaceRuns];
    [exact I|].
  destruct (isWhiteSpace c) eqn:Hc.
  - destruct inRun; [apply IH|].
    cbn [singleSpaced]. rewrite isWhiteSpace_SPACE. auto.
  - cbn [singleSpaced]. rewrite Hc. apply IH.
Qed.

Lemma replaceWhiteSpaceRuns_ink s :
  forall inRun, inkOf (replaceWhiteSpaceRuns inRun s) = inkOf s.
Proof.
  unfold inkOf.
  induction s as [|c s IH]; intros inRun; cbn [replaceWhiteSpaceRuns filter];
    [reflexivity|].
  destruct (isWhiteSpace c) eqn:Hc; cbn [negb].
  - destruct inRun; [apply IH|].
    cbn [filter]. rewrite isWhiteSpace_SPACE. cbn [negb]. apply IH.
  - cbn [filter]. rewrite Hc. cbn [negb]. f_equal. apply IH.
Qed.

Lemma singleSpaced_weaken s : singleSpaced true s -> singleSpaced false s.
Proof.
  destruct s as [|c s]; [trivial|]. cbn [singleSpaced].
  destruct (isWhiteSpace c); [|trivial]. intros (_ & Hf & _). discriminate.
Qed.

Lemma singleSpaced_prefix s t :
  forall b, singleSpaced b (s ++ t) -> singleSpaced b s.
Proof.
  induction s as [|c s IH]; intros b H; [exact I|].
  cbn [app singleSpaced] in *.
  destruct (isWhiteSpace c); [|now apply IH].
  destruct H as (Hc & Hb & H). repeat split; try assumption. now apply IH.
Qed.

Lemma singleSpaced_isLF s b c :
  singleSpaced b s -> In c s -> isLF c = false.
Proof.
  revert b. induction s as [|x s IH]; intros b H Hin; [destruct Hin|].
  destruct Hin as [<- | Hin].
  - cbn [singleSpaced] in H. destruct (isWhiteSpace x) eqn:Hx.
    + destruct H as (-> & _). reflexivity.
    + unfold isLF, isWhiteSpace in *.
      destruct (Nat.eqb_spec (nat_of_ascii x) 10) as [Heq|]; [|reflexivity].
      rewrite Heq in Hx. discriminate.
  - cbn [singleSpaced] in H. destruct (isWhiteSpace x).
    + destruct H as (_ & _ & H). now apply (IH true).
    + now apply (IH false).
Qed.

(** Without a line feed in the text the second [replace] has nothing
    to replace. *)
Lemma replaceNewlineRuns_noLF s :
  (forall c, In c s -> isLF c = false) -> replaceNewlineRuns 0 s = s.
Proof.
  induction s as [|c s IH]; intros H; [reflexivity|].
  cbn [replaceNewlineRuns]. rewrite (H c (or_introl eq_refl)).
  cbn [flushNewlines app]. cbn. f_equal. apply IH.
  intros x Hx. apply H. now right.
Qed.

Lemma trimStart_suffix s : exists front, s = front ++ trimStart s
                                         /\ Forall (fun c => isWhiteSpace c = true) front.
Proof.
  induction s as [|c s (front & Heq & Hws)]; [now exists []|].
  cbn [trimStart]. destruct (isWhiteSpace c) eqn:Hc.
  - exists (c :: front). split; [cbn; now f_equal | now constructor].
  - now exists [].
Qed.

Lemma trimEnd_snoc s c :
  trimEnd (s ++ [c]) = if isWhiteSpace c then trimEnd s else s ++ [c].
Proof.
  unfold trimEnd. rewrite rev_app_distr. cbn [rev app trimStart].
  destruct (isWhiteSpace c); [reflexivity|].
  cbn [rev]. now rewrite rev_involutive.
Qed.

Lemma trimEnd_prefix s : exists back, s = trimEnd s ++ back
                                      /\ Forall (fun c => isWhiteSpace c = true) back.
Proof.
  induction s as [|c s (back & Heq & Hws)] using rev_ind; [now exists []|].
  rewrite trimEnd_snoc. destruct (isWhiteSpace c) eqn:Hc.
  - exists (back ++ [c]). split.
    + rewrite app_assoc. now f_equal.
    + apply Forall_app. split; [exact Hws | now repeat constructor].
  - exists []. split; [now rewrite app_nil_r | constructor].
Qed.

Lemma trimStart_head s c rest :
  trimStart s = c :: rest -> isWhiteSpace c = false.
Proof.
  induction s as [|x s IH]; cbn [trimStart]; [discriminate|].
  destruct (isWhiteSpace x) eqn:Hx; [exact IH|].
  now intros [= <- _].
Qed.

Lemma trimEnd_last s front c :
  trimEnd s = front ++ [c] -> isWhiteSpace c = false.
Proof.
  induction s as [|x s IH] using rev_ind.
  - cbn. intros H. now destruct front.
  - rewrite trimEnd_snoc. destruct (isWhiteSpace x) eqn:Hx; [exact IH|].
    intros H. apply app_inj_tail in H as [_ <-]. exact Hx.
Qed.

Lemma trim_noOuterWhiteSpace s : noOuterWhiteSpace (trim s).
Proof.
  unfold trim. split.
  - intros c rest Heq.
    destruct (trimEnd_prefix (trimStart s)) as (back & Hs & _).
    rewrite Heq in Hs. cbn [app] in Hs.
    now apply (trimStart_head s c (rest ++ back)).
  - intros front c Heq. now apply (trimEnd_last (trimStart s) front c).
Qed.

Lemma inkOf_app s t : inkOf (s ++ t) = inkOf s ++ inkOf t.
Proof. apply filter_app. Qed.

Lemma inkOf_white s :
  Forall (fun c => isWhiteSpace c = true) s -> inkOf s = [].
Proof.
  induction 1 as [|c s Hc _ IH]; [reflexivity|].
  unfold inkOf in *. cbn [filter]. now rewrite Hc.
Qed.

Lemma trim_ink s : inkOf (trim s) = inkOf s.
Proof.
  unfold trim.
  destruct (trimStart_suffix s) as (front & Hs & Hf).
  destruct (trimEnd_prefix (trimStart s)) as (back & Ht & Hb).
  rewrite Hs at 2. rewrite Ht at 2.
  rewrite !inkOf_app, (inkOf_white front Hf), (inkOf_white back Hb).
  now rewrite app_nil_r.
Qed.

Lemma singleSpaced_suffix front s :
  forall b, singleSpaced b (front ++ s) -> singleSpaced false s.
Proof.
  induction front as [|c front IH]; intros b H.
  - destruct b; [now apply singleSpaced_weaken | exact H].
  - cbn [app singleSpaced] in H. destruct (isWhiteSpace c).
    + destruct H as (_ & _ & H). now apply (IH true).
    + now apply (IH false).
Qed.

Lemma trim_singleSpaced s b : singleSpaced b s -> singleSpaced false (trim s).
Proof.
  intros H. unfold trim.
  destruct (trimStart_suffix s) as (front & Hs & _).
  destruct (trimEnd_prefix (trimStart s)) as (back & Ht & _).
  rewrite Hs in H. apply singleSpaced_suffix in H.
  rewrite Ht in H. now apply singleSpaced_prefix in H.
Qed.

(** The first [replace] leaves a single-spaced text as it is. *)
Lemma replaceWhiteSpaceRuns_fixed s :
  forall b, singleSpaced b s -> replaceWhiteSpaceRuns b s = s.
Proof.
  induction s as [|c s IH]; intros b H; [reflexivity|].
  cbn [singleSpaced replaceWhiteSpaceRuns] in *.
  destruct (isWhiteSpace c).
  - destruct H as (-> & -> & H). f_equal. now apply IH.
  - f_equal. now apply IH.
Qed.

Lemma trimStart_fixed s :
  (forall c rest, s = c :: rest -> isWhiteSpace c = false) -> trimStart s = s.
Proof.
  destruct s as [|c s]; [reflexivity|]. intros H.
  cbn [trimStart]. now rewrite (H c s eq_refl).
Qed.

Lemma trimEnd_fixed s :
  (forall front c, s = front ++ [c] -> isWhiteSpace c = false) -> trimEnd s = s.
Proof.
  destruct s as [|c s] using rev_ind; [reflexivity|]. intros H.
  rewrite trimEnd_snoc. now rewrite (H s c eq_refl).
Qed.

Lemma cleanText_shape text :
  singleSpaced false (cleanText text)
  /\ noOuterWhiteSpace (cleanText text)
  /\ replaceNewlineRuns 0 (replaceWhiteSpaceRuns false text)
     = replaceWhiteSpaceRuns false text.
Proof.
  pose proof (replaceWhiteSpaceRuns_singleSpaced text false) as Hss.
  assert (Hnl : replaceNewlineRuns 0 (replaceWhiteSpaceRuns false text)
                = replaceWhiteSpaceRuns false text).
  { apply replaceNewlineRuns_noLF. intros c Hc.
    now apply (singleSpaced_isLF _ false c Hss). }
  unfold cleanText. rewrite Hnl.
  split; [now apply (trim_singleSpaced _ false)|].
  split; [apply trim_noOuterWhiteSpace | reflexivity].
Qed.

Lemma cleanText_fixed s :
  singleSpaced false s -> noOuterWhiteSpace s -> cleanText s = s.
Proof.
  intros Hss [Hhd Hlast]. unfold cleanText.
  rewrite (replaceWhiteSpaceRuns_fixed s false Hss).
  rewrite replaceNewlineRuns_noLF
    by (intros c Hc; now apply (singleSpaced_isLF s false c Hss)).
  unfold trim. rewrite (trimStart_fixed s Hhd). now apply trimEnd_fixed.
Qed.

(** X7.  The normalized text has no white space but single spaces
    between words (no tab, no line feed, no two spaces in a row, none
    at either end) and has the non-space characters of the input in
    their order; the replacement of runs of three line feeds never
    changes anything, the line feeds being spaces by then; and
    normalizing a normalized text gives it back. *)
Theorem cleanText_normal_form (text : jsstring) :
  singleSpaced false (cleanText text)
  /\ noOuterWhiteSpace (cleanText text)
  /\ inkOf (cleanText text) = inkOf text
  /\ replaceNewlineRuns 0 (replaceWhiteSpaceRuns false text)
     = replaceWhiteSpaceRuns false text
  /\ cleanText (cleanText text) = cleanText text.
Proof.
  destruct (cleanText_shape text) as (Hss & Houter & Hnl).
  repeat split; try assumption; try apply Houter.
  - unfold cleanText. rewrite Hnl, trim_ink.
    apply replaceWhiteSpaceRuns_ink.
  - now apply cleanText_fixed.
Qed.

(** *** Blank input *)

Lemma inkOf_nil_iff s :
  inkOf s = [] <-> Forall (fun c => isWhiteSpace c = true) s.
Proof.
  split; [|apply inkOf_white].
  unfold inkOf. induction s as [|c s IH]; [constructor|].
  cbn [filter]. destruct (isWhiteSpace c) eqn:Hc; cbn [negb];
    [|discriminate].
  intros H. constructor; auto.
Qed.

Lemma cleanText_nil_iff text :
  cleanText text = [] <-> Forall (fun c => isWhiteSpace c = true) text.
Proof.
  rewrite <- inkOf_nil_iff.
  destruct (cleanText_shape text) as (_ & [Hhd _] & Hnl).
  assert (Hink : inkOf (cleanText text) = inkOf text).
  { unfold cleanText. rewrite Hnl, trim_ink. apply replaceWhiteSpaceRuns_ink. }
  split.
  - intros Hnil. now rewrite <- Hink, Hnil.
  - intros Hnil. rewrite <- Hink in Hnil.
    destruct (cleanText text) as [|c rest]; [reflexivity|].
    specialize (Hhd c rest eq_refl).
    unfold inkOf in Hnil. cbn [filter] in Hnil. rewrite Hhd in Hnil.
    discriminate.
Qed.

Section LoopFacts.

Variable clock : Z -> Z.
Variable clean : jsstring.
Variables (mw mc ov : Z) (pp ps : bool).

Let step := chunkStep clock clean mw mc ov pp ps.
Let loop := chunkLoop clock clean mw mc ov pp ps.

(** The loop keeps the chunks it holds, adds the chunks of its passes
    (at least one when the cursor is before the end of the text), and
    every chunk it adds is the chunk of a pass. *)
Lemma chunkLoop_adds (P : TextChunk -> Prop) (fuel : nat) :
  (forall cur cnt, P (fst (step cur cnt))) ->
  forall chunks cur cnt out,
    loop fuel chunks cur cnt = Some out ->
    exists news,
      out = chunks ++ news
      /\ Forall P news
      /\ (cur < 10 * strlen clean -> news <> []).
Proof.
  intros HP. induction fuel as [|fuel IH]; intros chunks cur cnt out Hrun;
    [discriminate|].
  cbn [loop chunkLoop] in Hrun.
  destruct (cur <? 10 * strlen clean) eqn:Hcur.
  - specialize (HP cur cnt). unfold step in HP.
    destruct (chunkStep clock clean mw mc ov pp ps cur cnt) as [chunk cur'].
    cbn [fst] in HP.
    destruct (_ || _).
    + injection Hrun as <-. exists [chunk].
      repeat split; [now repeat constructor | discriminate].
    + apply IH in Hrun as (news & -> & Hall & _).
      exists (chunk :: news). rewrite <- app_assoc.
      repeat split; [now constructor | discriminate].
  - injection Hrun as <-. exists []. rewrite app_nil_r.
    repeat split; [constructor | zbool; lia].
Qed.

(** The chunks are numbered from the counter on, one by one. *)
Lemma chunkLoop_numbers (fuel : nat) :
  forall chunks cur cnt out,
    loop fuel chunks cur cnt = Some out ->
    exists news,
      out = chunks ++ news
      /\ map id news
         = map (fun i => (cnt + Z.of_nat i, clock (cnt + Z.of_nat i)))
             (seq 0 (length news)).
Proof.
  induction fuel as [|fuel IH]; intros chunks cur cnt out Hrun;
    [discriminate|].
  cbn [loop chunkLoop] in Hrun.
  destruct (cur <? 10 * strlen clean).
  - assert (Hid : id (fst (step cur cnt)) = (cnt, clock cnt)).
    { unfold step, chunkStep.
      repeat match goal with
             | |- context [if ?b then _ else _] => destruct b
             end; reflexivity. }
    unfold step in Hid.
    destruct (chunkStep clock clean mw mc ov pp ps cur cnt) as [chunk cur'].
    cbn [fst] in Hid.
    destruct (_ || _).
    + injection Hrun as <-. exists [chunk]. split; [reflexivity|].
      cbn. rewrite Z.add_0_r. now rewrite Hid.
    + apply IH in Hrun as (news & -> & Hids).
      exists (chunk :: news). rewrite <- app_assoc. split; [reflexivity|].
      cbn [map length seq]. rewrite Z.add_0_r, Hid. f_equal.
      rewrite Hids, <- seq_shift, map_map.
      apply map_ext. intros i.
      now replace (cnt + 1 + Z.of_nat i) with (cnt + Z.of_nat (S i)) by lia.
  - injection Hrun as <-. exists []. now rewrite app_nil_r.
Qed.

End LoopFacts.

Lemma NoDup_map_injective {A B} (f : A -> B) (l : list A) :
  (forall x y, f x = f y -> x = y) -> NoDup l -> NoDup (map f l).
Proof.
  intros Hinj. induction 1 as [|x l Hx _ IH]; cbn [map]; constructor;
    [|exact IH].
  intros Hin. apply in_map_iff in Hin as (y & Hy & Hin).
  apply Hinj in Hy. now subst y.
Qed.

(** X8.  [chunkText] returns the empty list exactly for a text that is
    empty or all white space; any other text gives at least one
    chunk, whatever the options are. *)
Theorem chunkText_empty_iff_blank (clock : Z -> Z) (text : jsstring)
  (options : ChunkingOptions) :
  chunkText clock text options = Some []
  <-> Forall (fun c => isWhiteSpace c = true) text.
Proof.
  rewrite <- cleanText_nil_iff.
  unfold chunkText, chunkTextFuel.
  destruct (strlen (cleanText text) =? 0) eqn:Hz; zbool.
  - apply strlen_zero_nil in Hz. now split.
  - assert (Hne : cleanText text <> [])
      by (intros Hnil; rewrite Hnil in Hz; now apply Hz).
    destruct (_ && _); [split; [discriminate | contradiction]|].
    split; [|contradiction].
    intros Hrun.
    apply (chunkLoop_adds _ _ _ _ _ _ _ (fun _ => True)) in Hrun;
      [|trivial].
    destruct Hrun as (news & Hout & _ & Hnews).
    cbn [app] in Hout. subst news. exfalso. apply Hnews; [|reflexivity].
    pose proof (strlen_nonneg (cleanText text)). lia.
Qed.

(** X9.  The chunks of one call are numbered 0, 1, 2, ... in the
    order they are returned (the number is the first part of the id),
    so no two chunks of a call have the same id. *)
Theorem chunkText_ids_are_consecutive (clock : Z -> Z) (text : jsstring)
  (options : ChunkingOptions) (chunks : list TextChunk) :
  chunkText clock text options = Some chunks ->
  map id chunks
  = map (fun i => (Z.of_nat i, clock (Z.of_nat i))) (seq 0 (length chunks))
  /\ NoDup (map id chunks).
Proof.
  intros Hrun.
  assert (Hids : map id chunks
                 = map (fun i => (Z.of_nat i, clock (Z.of_nat i)))
                     (seq 0 (length chunks))).
  { unfold chunkText, chunkTextFuel in Hrun.
    destruct (strlen (cleanText text) =? 0); [now injection Hrun as <-|].
    destruct (_ && _); [now injection Hrun as <-|].
    apply chunkLoop_numbers in Hrun as (news & Hout & Hids).
    cbn [app] in Hout. subst news. exact Hids. }
  split; [exact Hids|]. rewrite Hids.
  apply NoDup_map_injective; [|apply seq_NoDup].
  intros i j [= Hij _]. lia.
Qed.

(** The theorem at a text cut into three chunks. *)
Lemma chunkText_ids_are_consecutive_witness :
  exists chunks,
    chunkText sampleClock (str "abcde fghij klmno")
      (mkChunkingOptions None (Some 5) (Some 0) None None) = Some chunks
    /\ map id chunks
       = map (fun i => (Z.of_nat i, sampleClock (Z.of_nat i)))
           (seq 0 (length chunks))
    /\ NoDup (map id chunks).
Proof.
  eexists. split; [vm_compute; reflexivity|].
  apply (chunkText_ids_are_consecutive sampleClock (str "abcde fghij klmno")
           (mkChunkingOptions None (Some 5) (Some 0) None None)).
  vm_compute. reflexivity.
Defined.

(** *** Words *)

Lemma splitWs_length s :
  forall b w, length (splitWs b w s) = S (wsRuns b s).
Proof.
  induction s as [|c s IH]; intros b w; cbn [splitWs wsRuns]; [reflexivity|].
  destruct (isWhiteSpace c); [destruct b|]; cbn [length]; now rewrite IH.
Qed.

Lemma wsRuns_app_le p t : forall b, (wsRuns b p <= wsRuns b (p ++ t))%nat.
Proof.
  induction p as [|c p IH]; intros b; cbn [app wsRuns]; [lia|].
  destruct (isWhiteSpace c); [destruct b|];
    try apply IH; apply le_n_S, IH.
Qed.

Lemma wsRuns_trimStart s : forall b, (wsRuns false (trimStart s) <= wsRuns b s)%nat.
Proof.
  induction s as [|c s IH]; intros b; [cbn; lia|].
  cbn [trimStart]. destruct (isWhiteSpace c) eqn:Hc.
  - cbn [wsRuns]. rewrite Hc. specialize (IH true). destruct b; lia.
  - cbn [wsRuns]. rewrite Hc. lia.
Qed.

(** Trimming does not add words. *)
Lemma words_trim s : (length (split (trim s)) <= length (split s))%nat.
Proof.
  unfold split. rewrite !splitWs_length. apply le_n_S.
  unfold trim.
  destruct (trimEnd_prefix (trimStart s)) as (back & Heq & _).
  pose proof (wsRuns_app_le (trimEnd (trimStart s)) back false) as H1.
  rewrite <- Heq in H1.
  pose proof (wsRuns_trimStart s false). lia.
Qed.

Lemma wsRuns_inkWord w t :
  inkWord w ->
  forall b, wsRuns b (w ++ t)
            = wsRuns (match w with [] => b | _ => false end) t.
Proof.
  induction 1 as [|c w Hc Hw IH]; intros b; [reflexivity|].
  cbn [app wsRuns]. rewrite Hc. rewrite IH. now destruct w.
Qed.

Lemma join_cons w words :
  join (w :: words)
  = match words with [] => w | _ => w ++ SPACE :: join words end.
Proof. reflexivity. Qed.

Lemma wsRuns_join words :
  Forall inkWord words ->
  forall b, (wsRuns b (join words) <= length words - 1)%nat.
Proof.
  induction 1 as [|w words Hw Hall IH]; intros b; [cbn; lia|].
  rewrite join_cons. destruct words as [|w2 words].
  - rewrite <- (app_nil_r w), wsRuns_inkWord by exact Hw. cbn. lia.
  - rewrite wsRuns_inkWord by exact Hw.
    cbn [wsRuns]. rewrite isWhiteSpace_SPACE.
    specialize (IH true). cbn [length] in *.
    destruct (match w with [] => b | _ => false end); lia.
Qed.

Lemma splitWs_inkWords s :
  forall b w, inkWord w -> Forall inkWord (splitWs b w s).
Proof.
  induction s as [|c s IH]; intros b w Hw; cbn [splitWs].
  - now repeat constructor.
  - destruct (isWhiteSpace c) eqn:Hc; [destruct b|].
    + now apply IH.
    + constructor; [exact Hw | apply IH; constructor].
    + apply IH. apply Forall_app. split; [exact Hw | now repeat constructor].
Qed.

Lemma Forall_firstn_ {A} (P : A -> Prop) n (l : list A) :
  Forall P l -> Forall P (firstn n l).
Proof.
  revert n. induction l as [|x l IH]; intros n H; destruct n; cbn [firstn];
    try constructor; inversion H; subst; auto.
Qed.

(** With a limit of at least one word the result of [trimToWordLimit]
    has no more words than the limit. *)
Lemma trimToWordLimit_words text n :
  1 <= n -> Z.of_nat (length (split (trimToWordLimit text n))) <= n.
Proof.
  intros Hn. unfold trimToWordLimit.
  destruct (Z.of_nat (length (split text)) <=? n) eqn:Hle; zbool;
    [exact Hle|].
  unfold slice0. destruct (n <? 0) eqn:Hneg; zbool; [lia|].
  unfold split at 1. rewrite splitWs_length.
  pose proof (wsRuns_join (firstn (Z.to_nat n) (split text))
                (Forall_firstn_ _ _ _
                   (splitWs_inkWords text false [] (Forall_nil _)))
                false) as Hruns.
  rewrite length_firstn in Hruns. lia.
Qed.

(** *** Words and white space of the chunks *)

Section StepWords.

Variable clock : Z -> Z.
Variable clean : jsstring.
Variables (mw mc ov : Z) (pp ps : bool).

Let step := chunkStep clock clean mw mc ov pp ps.

(** Wherever a pass cuts the text, the content of its chunk is the
    trimmed form of a text [X] (the piece cut out, or what
    [trimToWordLimit] has made of it), its word count is counted on
    that trimmed form, and with [maxWords >= 1] the text [X] has at
    most [maxWords] words. *)
Lemma chunkStep_content cur cnt :
  exists X,
    content (fst (step cur cnt)) = trim X
    /\ wordCount (fst (step cur cnt)) = Z.of_nat (length (split (trim X)))
    /\ (1 <= mw -> Z.of_nat (length (split X)) <= mw).
Proof.
  unfold step, chunkStep.
  repeat match goal with
         | |- context [if ?b then _ else _] =>
             let H := fresh "Hc" in destruct b eqn:H
         end;
    cbn [fst snd content wordCount];
    (eexists; split; [reflexivity|]; split; [reflexivity|]; intros Hmw;
     lazymatch goal with
     | |- Z.of_nat (length (split (trimToWordLimit _ _))) <= _ =>
         apply trimToWordLimit_words; exact Hmw
     | _ => zbool; assumption
     end).
Qed.

Lemma chunkStep_words cur cnt :
  let c := fst (step cur cnt) in
  noOuterWhiteSpace (content c)
  /\ wordCount c = Z.of_nat (length (split (content c)))
  /\ 1 <= wordCount c
  /\ (1 <= mw -> wordCount c <= mw).
Proof.
  destruct (chunkStep_content cur cnt) as (X & Hc & Hw & Hwords).
  cbn zeta. rewrite Hc, Hw.
  pose proof (words_trim X).
  split; [apply trim_noOuterWhiteSpace|]. split; [reflexivity|]. split.
  - unfold split at 1. rewrite splitWs_length. lia.
  - intros Hmw. specialize (Hwords Hmw). lia.
Qed.

End StepWords.

(** X10.  Every chunk [chunkText] returns has a content that neither
    starts nor ends with white space; its [wordCount] is the number of
    words of that content and is at least 1; and with [maxWords >= 1]
    it is at most [maxWords].  None of this depends on where the text
    is cut. *)
Theorem chunkText_chunks_trimmed_and_counted (clock : Z -> Z)
  (text : jsstring) (options : ChunkingOptions) (chunks : list TextChunk) :
  chunkText clock text options = Some chunks ->
  Forall (fun c =>
            noOuterWhiteSpace (content c)
            /\ wordCount c = Z.of_nat (length (split (content c)))
            /\ 1 <= wordCount c
            /\ (1 <= orDefault (maxWords options) 500 ->
                wordCount c <= orDefault (maxWords options) 500)) chunks.
Proof.
  intros Hrun. unfold chunkText, chunkTextFuel in Hrun.
  destruct (strlen (cleanText text) =? 0); [injection Hrun as <-; constructor|].
  destruct (_ && _) eqn:Hsmall.
  - injection Hrun as <-. repeat constructor; cbn [content wordCount].
    + apply cleanText_shape.
    + apply cleanText_shape.
    + unfold split. rewrite splitWs_length. lia.
    + intros _. apply andb_true_iff in Hsmall as [Hw _]. zbool. exact Hw.
  - apply (chunkLoop_adds clock (cleanText text) _ _ _ _ _
             (fun c =>
                noOuterWhiteSpace (content c)
                /\ wordCount c = Z.of_nat (length (split (content c)))
                /\ 1 <= wordCount c
                /\ (1 <= orDefault (maxWords options) 500 ->
                    wordCount c <= orDefault (maxWords options) 500)))
      in Hrun; [|intros cur cnt; apply chunkStep_words].
    destruct Hrun as (news & Hout & Hall & _).
    cbn [app] in Hout. now subst news.
Qed.

(** The theorem at a text of six words cut every twelve characters
    and every two words. *)
Lemma chunkText_chunks_trimmed_and_counted_witness :
  exists chunks,
    chunkText sampleClock (str "one two three four five six")
      (mkChunkingOptions (Some 2) (Some 12) (Some 0) None None) = Some chunks
    /\ Forall (fun c =>
                 noOuterWhiteSpace (content c)
                 /\ wordCount c = Z.of_nat (length (split (content c)))
                 /\ 1 <= wordCount c
                 /\ (1 <= 2 -> wordCount c <= 2)) chunks.
Proof.
  eexists. split; [vm_compute; reflexivity|].
  apply (chunkText_chunks_trimmed_and_counted sampleClock
           (str "one two three four five six")
           (mkChunkingOptions (Some 2) (Some 12) (Some 0) None None)).
  vm_compute. reflexivity.
Defined.

(** *** The paragraph search *)

Lemma scanDoubleNewline_none text :
  (forall c, In c text -> isLF c = false) ->
  forall i last, scanDoubleNewline i last text = last.
Proof.
  induction text as [|c text IH]; intros Hno i last; [reflexivity|].
  cbn [scanDoubleNewline]. destruct text as [|d text]; [reflexivity|].
  rewrite (Hno c (or_introl eq_refl)). cbn [andb].
  apply IH. intros x Hx. apply Hno. now right.
Qed.

Lemma findLastParagraphEnd_none text :
  (forall c, In c text -> isLF c = false) ->
  lastIndexOfDoubleNewline text = -1
  /\ findLastParagraphEnd text = strlen text.
Proof.
  intros Hno. unfold findLastParagraphEnd, lastIndexOfDoubleNewline.
  now rewrite scanDoubleNewline_none.
Qed.

Lemma substring_In s a b c : In c (substring s a b) -> In c s.
Proof.
  unfold substring.
  set (from := Nat.min (clampIndex s a) (clampIndex s b)).
  set (count := (Nat.max (clampIndex s a) (clampIndex s b) - from)%nat).
  intros H.
  rewrite <- (firstn_skipn from s). apply in_or_app. right.
  rewrite <- (firstn_skipn count (skipn from s)). apply in_or_app. now left.
Qed.

(** X11.  The paragraph search of the loop never finds a paragraph
    boundary.  The normalization has made every line feed a space, so
    in every piece of the normalized text, and so in every
    [chunkContent] that [substring] cuts out of it, whatever the two
    indexes are, there is no double line feed ([lastIndexOf] is [-1])
    and [findLastParagraphEnd] returns the length of the piece. *)
Theorem findLastParagraphEnd_finds_no_boundary (text : jsstring) :
  (forall front piece back,
      cleanText text = front ++ piece ++ back ->
      lastIndexOfDoubleNewline piece = -1
      /\ findLastParagraphEnd piece = strlen piece)
  /\ (forall a b : tenths,
        lastIndexOfDoubleNewline (substring (cleanText text) a b) = -1
        /\ findLastParagraphEnd (substring (cleanText text) a b)
           = strlen (substring (cleanText text) a b)).
Proof.
  assert (HnoLF : forall c, In c (cleanText text) -> isLF c = false).
  { intros c Hc. destruct (cleanText_shape text) as (Hss & _).
    now apply (singleSpaced_isLF _ false c Hss). }
  split.
  - intros front piece back Heq. apply findLastParagraphEnd_none.
    intros c Hc. apply HnoLF. rewrite Heq.
    apply in_or_app. right. apply in_or_app. now left.
  - intros a b. apply findLastParagraphEnd_none.
    intros c Hc. apply HnoLF. now apply substring_In in Hc.
Qed.

(** *** Similarity and deduplication *)

Lemma addAll_In (ws acc : list jsstring) (x : jsstring) :
  In x (fold_left setAdd ws acc) <-> In x acc \/ In x ws.
Proof.
  revert acc. induction ws as [|w ws IH]; intros acc; cbn [fold_left].
  - cbn. tauto.
  - rewrite IH. unfold setAdd. destruct (setHas acc w) eqn:Hhas.
    + apply setHas_In in Hhas. cbn [In]. split; [tauto|].
      intros [H | [<- | H]]; auto.
    + rewrite in_app_iff. cbn [In]. tauto.
Qed.

Lemma newSet_NoDup ws : NoDup (newSet ws).
Proof. apply addAll_NoDup. constructor. Qed.

Lemma newSet_of_NoDup ws : NoDup ws -> newSet ws = ws.
Proof. intros H. now apply (addAll_fresh ws []). Qed.

Lemma same_elements_same_length (l l' : list jsstring) :
  NoDup l -> NoDup l' -> (forall x, In x l <-> In x l') ->
  length l = length l'.
Proof.
  intros Hl Hl' Hsame. apply Nat.le_antisymm;
    apply NoDup_incl_length; try assumption; intros x Hx; now apply Hsame.
Qed.

Lemma filter_NoDup {A} (f : A -> bool) (l : list A) :
  NoDup l -> NoDup (filter f l).
Proof.
  induction 1 as [|x l Hx _ IH]; cbn [filter]; [constructor|].
  destruct (f x); [|exact IH]. constructor; [|exact IH].
  intros Hin. apply filter_In in Hin as [Hin _]. contradiction.
Qed.

(** The two sizes [calculateSimilarity] divides, for the word sets
    [A] and [B] of the two texts. *)
Lemma calculateSimilarity_sizes text1 text2 :
  let A := newSet (split (toLowerCase text1)) in
  let B := newSet (split (toLowerCase text2)) in
  numer (calculateSimilarity text1 text2)
  = Z.of_nat (length (filter (setHas B) A))
  /\ denom (calculateSimilarity text1 text2)
     = Z.of_nat (length (fold_left setAdd B A))
  /\ NoDup A /\ NoDup B /\ A <> [].
Proof.
  intros A B. unfold calculateSimilarity. cbn [numer denom]. fold A B.
  pose proof (newSet_NoDup (split (toLowerCase text1))) as HA.
  pose proof (newSet_NoDup (split (toLowerCase text2))) as HB.
  fold A in HA. fold B in HB.
  rewrite (newSet_of_NoDup (filter (setHas B) A))
    by (now apply filter_NoDup).
  unfold newSet at 1. rewrite fold_left_app.
  change (fold_left setAdd A []) with (newSet A).
  rewrite (newSet_of_NoDup A HA).
  repeat split; try assumption.
  intros Hnil.
  pose proof (newSet_nonempty (split (toLowerCase text1))
                (splitWs_nonempty _ _ _)) as Hlen.
  fold A in Hlen. rewrite Hnil in Hlen. cbn in Hlen. lia.
Qed.

(** X12.  The similarity of two texts is a fraction between 0 and 1
    with a denominator of at least 1 (never a division by zero, also
    for empty texts), and it does not depend on the order of the two
    texts. *)
Theorem calculateSimilarity_range_and_symmetry (text1 text2 : jsstring) :
  0 <= numer (calculateSimilarity text1 text2)
       <= denom (calculateSimilarity text1 text2)
  /\ 1 <= denom (calculateSimilarity text1 text2)
  /\ calculateSimilarity text1 text2 = calculateSimilarity text2 text1.
Proof.
  destruct (calculateSimilarity_sizes text1 text2)
    as (Hn & Hd & HA & HB & Hne).
  destruct (calculateSimilarity_sizes text2 text1)
    as (Hn' & Hd' & _ & _ & _).
  cbn zeta in *.
  set (A := newSet (split (toLowerCase text1))) in *.
  set (B := newSet (split (toLowerCase text2))) in *.
  pose proof (addAll_length B A) as Hgrow.
  pose proof (filter_length_le (setHas B) A) as Hfil.
  assert (HlenA : (1 <= length A)%nat)
    by (destruct A; [congruence | cbn; lia]).
  split; [rewrite Hn, Hd; lia|]. split; [rewrite Hd; lia|].
  assert (Hnum : length (filter (setHas B) A) = length (filter (setHas A) B)).
  { apply same_elements_same_length; try now apply filter_NoDup.
    intros x. rewrite !filter_In, !setHas_In. tauto. }
  assert (Hden : length (fold_left setAdd B A)
                 = length (fold_left setAdd A B)).
  { apply same_elements_same_length; try now apply addAll_NoDup.
    intros x. rewrite !addAll_In. tauto. }
  destruct (calculateSimilarity text1 text2) as [n1 d1].
  destruct (calculateSimilarity text2 text1) as [n2 d2].
  cbn [numer denom] in *. f_equal; lia.
Qed.

Lemma keptAfter_subsequence prev rest kept :
  keptAfter prev rest kept -> subsequence kept rest.
Proof. induction 1; now constructor. Qed.

Lemma keptAfter_functional prev rest kept :
  keptAfter prev rest kept ->
  forall kept', keptAfter prev rest kept' -> kept = kept'.
Proof.
  induction 1 as [prev | prev c rest kept Hsim Hk IH
                  | prev c rest kept Hsim Hk IH];
    intros kept' H'; inversion H'; subst; try congruence.
  - now apply IH.
  - f_equal. now apply IH.
Qed.

(** What has been kept is kept again: every chunk of it is below the
    threshold against the chunk before it. *)
Lemma keptAfter_again prev rest kept :
  keptAfter prev rest kept -> keptAfter prev kept kept.
Proof.
  induction 1 as [prev | prev c rest kept Hsim Hk IH
                  | prev c rest kept Hsim Hk IH].
  - constructor.
  - exact IH.
  - now apply kept_keep.
Qed.

Lemma deduplicateChunks_cons first rest :
  exists kept,
    deduplicateChunks (first :: rest) = first :: kept
    /\ keptAfter first rest kept.
Proof.
  destruct rest as [|second rest].
  - exists []. split; [reflexivity | constructor].
  - destruct (deduplicateLoop_keptAfter (second :: rest) [] first)
      as (kept & Heq & Hk).
    exists kept. split; [exact Heq | exact Hk].
Qed.

(** X13.  [deduplicateChunks] only leaves chunks out: its result is
    the input with some chunks removed, the others in their order; and
    a second pass removes nothing more. *)
Theorem deduplicateChunks_subsequence_idempotent (chunks : list TextChunk) :
  subsequence (deduplicateChunks chunks) chunks
  /\ deduplicateChunks (deduplicateChunks chunks) = deduplicateChunks chunks.
Proof.
  destruct chunks as [|first rest]; [split; [constructor | reflexivity]|].
  destruct (deduplicateChunks_cons first rest) as (kept & -> & Hk).
  split.
  - apply subsequence_keep. now apply keptAfter_subsequence in Hk.
  - destruct (deduplicateChunks_cons first kept) as (kept' & -> & Hk').
    f_equal. symmetry.
    exact (keptAfter_functional _ _ _ (keptAfter_again _ _ _ Hk) _ Hk').
Qed.

(** *** analyzeChunks *)

Lemma fold_extMin xs : forall a,
  exists m, fold_left extMin xs (Finite a) = Finite m
            /\ m <= a /\ (forall x, In x xs -> m <= x)
            /\ (m = a \/ In m xs).
Proof.
  induction xs as [|x xs IH]; intros a; cbn [fold_left extMin].
  - exists a. repeat split; [lia | intros ? [] | now left].
  - destruct (IH (Z.min a x)) as (m & -> & Hle & Hall & Hin).
    exists m. repeat split; [lia | |].
    + intros y [<- | Hy]; [lia | now apply Hall].
    + destruct Hin as [-> | Hin]; [|right; now right].
      destruct (Z.min_spec a x) as [[_ ->] | [_ ->]];
        [now left | right; now left].
Qed.

Lemma fold_extMax xs : forall a,
  exists m, fold_left extMax xs (Finite a) = Finite m
            /\ a <= m /\ (forall x, In x xs -> x <= m)
            /\ (m = a \/ In m xs).
Proof.
  induction xs as [|x xs IH]; intros a; cbn [fold_left extMax].
  - exists a. repeat split; [lia | intros ? [] | now left].
  - destruct (IH (Z.max a x)) as (m & -> & Hle & Hall & Hin).
    exists m. repeat split; [lia | |].
    + intros y [<- | Hy]; [lia | now apply Hall].
    + destruct Hin as [-> | Hin]; [|right; now right].
      destruct (Z.max_spec a x) as [[_ ->] | [_ ->]];
        [right; now left | now left].
Qed.

Lemma fold_add_bounds lo hi xs : forall acc,
  (forall x, In x xs -> lo <= x <= hi) ->
  acc + Z.of_nat (length xs) * lo
  <= fold_left Z.add xs acc
  <= acc + Z.of_nat (length xs) * hi.
Proof.
  induction xs as [|x xs IH]; intros acc Hall; cbn [fold_left length].
  - lia.
  - specialize (IH (acc + x) (fun y Hy => Hall y (or_intror Hy))).
    specialize (Hall x (or_introl eq_refl)). nia.
Qed.

Lemma extremes_of_list (xs : list Z) :
  xs <> [] ->
  exists lo hi,
    mathMin xs = Finite lo /\ mathMax xs = Finite hi
    /\ extremesOf xs lo hi (sumOf xs) (Z.of_nat (length xs)).
Proof.
  destruct xs as [|x xs]; [congruence|]. intros _.
  unfold mathMin, mathMax. cbn [fold_left extMin extMax].
  destruct (fold_extMin xs x) as (lo & -> & Hlo & Hlos & Hloin).
  destruct (fold_extMax xs x) as (hi & -> & Hhi & Hhis & Hhiin).
  exists lo, hi. split; [reflexivity|]. split; [reflexivity|].
  assert (Hall : forall y, In y (x :: xs) -> lo <= y <= hi).
  { intros y [<- | Hy]; [lia|]. split; [now apply Hlos | now apply Hhis]. }
  unfold extremesOf. repeat split; try (now apply Hall).
  - destruct Hloin as [-> | Hin]; [now left | now right].
  - destruct Hhiin as [-> | Hin]; [now left | now right].
  - pose proof (fold_add_bounds lo hi (x :: xs) 0 Hall). unfold sumOf. lia.
  - pose proof (fold_add_bounds lo hi (x :: xs) 0 Hall). unfold sumOf. lia.
Qed.

(** X14.  For a list of chunks that is not empty, [analyzeChunks]
    reports finite extremes that are the word count (character count)
    of some chunk and bound the one of every chunk, and averages that
    lie between the minimum and the maximum, over the number of
    chunks.  For the empty list the averages are [0 / 0], the minima
    are [Infinity] and the maxima [-Infinity]. *)
Theorem analyzeChunks_extremes_and_averages (chunks : list TextChunk) :
  let r := analyzeChunks chunks in
  totalChunks r = Z.of_nat (length chunks)
  /\ denom (avgWordCount r) = totalChunks r
  /\ denom (avgCharCount r) = totalChunks r
  /\ (chunks <> [] ->
      exists wlo whi clo chi,
        minWordCount r = Finite wlo /\ maxWordCount r = Finite whi
        /\ minCharCount r = Finite clo /\ maxCharCount r = Finite chi
        /\ extremesOf (map wordCount chunks) wlo whi
             (numer (avgWordCount r)) (totalChunks r)
        /\ extremesOf (map (fun c => strlen (content c)) chunks) clo chi
             (numer (avgCharCount r)) (totalChunks r))
  /\ (chunks = [] ->
      r = mkChunkAnalysis 0 (mkFraction 0 0) (mkFraction 0 0)
            PosInfinity NegInfinity PosInfinity NegInfinity).
Proof.
  cbn zeta. unfold analyzeChunks.
  cbn [totalChunks avgWordCount avgCharCount minWordCount maxWordCount
       minCharCount maxCharCount numer denom].
  repeat split.
  - intros Hne.
    destruct (extremes_of_list (map wordCount chunks))
      as (wlo & whi & Hwmin & Hwmax & Hw);
      [now destruct chunks|].
    destruct (extremes_of_list (map (fun c => strlen (content c)) chunks))
      as (clo & chi & Hcmin & Hcmax & Hc);
      [now destruct chunks|].
    rewrite length_map in Hw, Hc.
    exists wlo, whi, clo, chi.
    split; [exact Hwmin|]. split; [exact Hwmax|].
    split; [exact Hcmin|]. split; [exact Hcmax|].
    split; [exact Hw | exact Hc].
  - now intros ->.
Qed.

(** The theorem at three chunks. *)
Lemma analyzeChunks_extremes_and_averages_witness :
  let chunks := [sampleChunk 0 "red apple"; sampleChunk 1 "green pear";
                 sampleChunk 2 "fig"] in
  exists wlo whi clo chi,
    minWordCount (analyzeChunks chunks) = Finite wlo
    /\ maxWordCount (analyzeChunks chunks) = Finite whi
    /\ minCharCount (analyzeChunks chunks) = Finite clo
    /\ maxCharCount (analyzeChunks chunks) = Finite chi
    /\ extremesOf (map wordCount chunks) wlo whi
         (numer (avgWordCount (analyzeChunks chunks)))
         (totalChunks (analyzeChunks chunks))
    /\ extremesOf (map (fun c => strlen (content c)) chunks) clo chi
         (numer (avgCharCount (analyzeChunks chunks)))
         (totalChunks (analyzeChunks chunks)).
Proof.
  destruct (analyzeChunks_extremes_and_averages
              [sampleChunk 0 "red apple"; sampleChunk 1 "green pear";
               sampleChunk 2 "fig"]) as (_ & _ & _ & Hfull & _).
  apply Hfull. discriminate.
Defined.

End ChunkerMore.

(** * Properties of the key builders *)

Module CacheKeysFacts.

Import CacheKeys.

Lemma toInt32_range z : - 2 ^ 31 <= toInt32 z < 2 ^ 31.
Proof.
  unfold toInt32. pose proof (Z.mod_pos_bound (z + 2 ^ 31) (2 ^ 32)).
  lia.
Qed.

Lemma toInt32_congruent a b k :
  a = b + k * 2 ^ 32 -> toInt32 a = toInt32 b.
Proof.
  intros ->. unfold toInt32.
  replace (b + k * 2 ^ 32 + 2 ^ 31) with (b + 2 ^ 31 + k * 2 ^ 32) by lia.
  now rewrite Z.mod_add by lia.
Qed.

Lemma toInt32_offset z : exists k, toInt32 z = z + k * 2 ^ 32.
Proof.
  unfold toInt32. exists (- ((z + 2 ^ 31) / 2 ^ 32)).
  pose proof (Z.div_mod (z + 2 ^ 31) (2 ^ 32)). lia.
Qed.

(** The shift and the subtraction multiply by 31 modulo 2^32. *)
Lemma hashStep_31 h c : hashStep h c = toInt32 (31 * h + charCode c).
Proof.
  unfold hashStep. cbv zeta.
  destruct (toInt32_offset h) as [k1 H1].
  destruct (toInt32_offset (toInt32 h * 32)) as [k2 H2].
  apply (toInt32_congruent _ _ (k2 + 32 * k1)). lia.
Qed.

(** X15.  The hash of [generateTextHash] before it is printed is the
    polynomial hash with multiplier 31 kept in 32 signed bits: it is 0
    for the empty text, a further character [c] takes it from [h] to
    the 32-bit value of [31 * h + c], and it always lies between
    [-2^31] and [2^31 - 1]. *)
Theorem textHash_is_polynomial_31 :
  textHash [] = 0
  /\ (forall text c,
        textHash (text ++ [c])
        = toInt32 (31 * textHash text + charCode c))
  /\ (forall text, - 2 ^ 31 <= textHash text < 2 ^ 31).
Proof.
  split; [reflexivity|]. split.
  - intros text c. unfold textHash. rewrite fold_left_app.
    cbn [fold_left]. apply hashStep_31.
  - intros text. induction text as [|c text _] using rev_ind.
    + cbn. lia.
    + unfold textHash. rewrite fold_left_app. cbn [fold_left].
      rewrite hashStep_31. apply toInt32_range.
Qed.

(** *** Printing numbers *)

Lemma digitValue_digitChar d : 0 <= d < 36 -> digitValue (digitChar d) = d.
Proof.
  intros Hd. unfold digitValue, digitChar.
  destruct (d <? 10) eqn:Hlt; zbool.
  - rewrite nat_ascii_embedding by lia.
    destruct (Z.of_nat (48 + Z.to_nat d) <? 58) eqn:H; zbool; lia.
  - rewrite nat_ascii_embedding by lia.
    destruct (Z.of_nat (87 + Z.to_nat d) <? 58) eqn:H; zbool; lia.
Qed.

Lemma digitChar_not_underscore d : 0 <= d < 36 -> digitChar d <> UNDERSCORE.
Proof.
  intros Hd Heq. apply (f_equal nat_of_ascii) in Heq.
  unfold digitChar, UNDERSCORE in Heq.
  destruct (d <? 10) eqn:Hlt; zbool;
    rewrite !nat_ascii_embedding in Heq by lia; lia.
Qed.

Section Radix.

Variable radix : Z.
Hypothesis radix_range : 2 <= radix <= 36.

Lemma digitsOf_value (fuel : nat) :
  forall n acc,
    0 <= n < radix ^ Z.of_nat fuel ->
    valueOf radix (digitsOf fuel radix n acc)
    = fold_left (fun a c => a * radix + digitValue c) acc n.
Proof.
  unfold valueOf.
  induction fuel as [|fuel IH]; intros n acc Hn.
  - cbn in Hn. replace n with 0 by lia. reflexivity.
  - cbn [digitsOf]. cbv zeta.
    pose proof (Z.mod_pos_bound n radix ltac:(lia)) as Hmod.
    pose proof (Z.div_mod n radix ltac:(lia)) as Hdiv.
    destruct (n / radix =? 0) eqn:Hq; zbool.
    + cbn [fold_left]. rewrite digitValue_digitChar by lia.
      f_equal. lia.
    + rewrite IH.
      * cbn [fold_left]. rewrite digitValue_digitChar by lia.
        f_equal. lia.
      * rewrite Nat2Z.inj_succ, Z.pow_succ_r in Hn by lia.
        split; [apply Z.div_pos; lia|].
        apply Z.div_lt_upper_bound; lia.
Qed.

Lemma digitsOf_no_underscore (fuel : nat) :
  forall n acc c,
    In c (digitsOf fuel radix n acc) -> c <> UNDERSCORE \/ In c acc.
Proof.
  induction fuel as [|fuel IH]; intros n acc c Hin; [now right|].
  cbn [digitsOf] in Hin. cbv zeta in Hin.
  pose proof (Z.mod_pos_bound n radix ltac:(lia)) as Hmod.
  assert (Hd : digitChar (n mod radix) <> UNDERSCORE)
    by (apply digitChar_not_underscore; lia).
  destruct (n / radix =? 0).
  - destruct Hin as [<- | Hin]; [now left | now right].
  - apply IH in Hin as [Hc | [<- | Hin]]; [now left | now left | now right].
Qed.

Lemma enough_digits n :
  0 <= n -> n < radix ^ Z.of_nat (S (Z.to_nat (Z.log2 n))).
Proof.
  intros Hn. rewrite Nat2Z.inj_succ, Z2Nat.id by apply Z.log2_nonneg.
  destruct (Z.eq_dec n 0) as [-> | Hne]; [cbn; lia|].
  pose proof (Z.log2_spec n ltac:(lia)) as [_ Hlt].
  eapply Z.lt_le_trans; [exact Hlt|].
  apply Z.pow_le_mono_l. pose proof (Z.log2_nonneg n). lia.
Qed.

(** Reading the printed number gives the number back. *)
Lemma valueOf_toStringRadix n : 0 <= n -> valueOf radix (toStringRadix radix n) = n.
Proof.
  intros Hn. unfold toStringRadix. rewrite digitsOf_value; [reflexivity|].
  split; [exact Hn | now apply enough_digits].
Qed.

Lemma toStringRadix_inj a b :
  0 <= a -> 0 <= b -> toStringRadix radix a = toStringRadix radix b -> a = b.
Proof.
  intros Ha Hb Heq. apply (f_equal (valueOf radix)) in Heq.
  now rewrite !valueOf_toStringRadix in Heq.
Qed.

Lemma toStringRadix_no_underscore n : ~ In UNDERSCORE (toStringRadix radix n).
Proof.
  intros Hin. apply digitsOf_no_underscore in Hin as [Hc | []]. now apply Hc.
Qed.

End Radix.

Lemma string_of_list_ascii_inj l l' :
  string_of_list_ascii l = string_of_list_ascii l' -> l = l'.
Proof.
  intros H. apply (f_equal list_ascii_of_string) in H.
  now rewrite !list_ascii_of_string_of_list_ascii in H.
Qed.

(** X16.  Two texts get the same hash string exactly when their
    32-bit hashes agree up to the sign: the base-36 print is faithful
    (reading it back gives the number), and [Math.abs] is what merges
    a hash with its opposite. *)
Theorem generateTextHash_equal_iff (text1 text2 : jsstring) :
  generateTextHash text1 = generateTextHash text2
  <-> Z.abs (textHash text1) = Z.abs (textHash text2).
Proof.
  unfold generateTextHash. split.
  - intros H. apply string_of_list_ascii_inj in H.
    apply (toStringRadix_inj 36) in H; try lia; exact H.
  - now intros ->.
Qed.

(** *** The keys *)

Lemma list_ascii_of_string_app (a b : string) :
  list_ascii_of_string (a ++ b)
  = list_ascii_of_string a ++ list_ascii_of_string b.
Proof. induction a as [|c a IH]; cbn; [reflexivity | now rewrite IH]. Qed.

Lemma list_ascii_of_string_inj (a b : string) :
  list_ascii_of_string a = list_ascii_of_string b -> a = b.
Proof.
  intros H. apply (f_equal string_of_list_ascii) in H.
  now rewrite !string_of_list_ascii_of_string in H.
Qed.

(** A separator that occurs in neither of the two parts before it
    tells where they end. *)
Lemma split_at_first {A} (x : A) (l1 l2 r1 r2 : list A) :
  ~ In x l1 -> ~ In x l2 ->
  l1 ++ x :: r1 = l2 ++ x :: r2 -> l1 = l2 /\ r1 = r2.
Proof.
  revert l2. induction l1 as [|a l1 IH]; intros [|b l2] H1 H2 Heq;
    cbn [app] in Heq.
  - injection Heq as ->. now split.
  - injection Heq as -> _. elim H2. now left.
  - injection Heq as -> _. elim H1. now left.
  - injection Heq as -> Heq.
    destruct (IH l2) as [-> ->]; try assumption; try now split.
    + intros Hin. apply H1. now right.
    + intros Hin. apply H2. now right.
Qed.

(** Likewise for the two parts after it. *)
Lemma split_at_last {A} (x : A) (l1 l2 r1 r2 : list A) :
  ~ In x r1 -> ~ In x r2 ->
  l1 ++ x :: r1 = l2 ++ x :: r2 -> l1 = l2 /\ r1 = r2.
Proof.
  intros H1 H2 Heq. apply (f_equal (@rev A)) in Heq.
  rewrite !rev_app_distr in Heq. cbn [rev] in Heq.
  rewrite <- !app_assoc in Heq. cbn [app] in Heq.
  apply split_at_first in Heq as [Hr Hl];
    try (rewrite <- in_rev; assumption).
  apply (f_equal (@rev A)) in Hr, Hl. rewrite !rev_involutive in Hr, Hl.
  now split.
Qed.

(** X17.  [createPdfKey] gives different keys for different files:
    two keys are equal exactly when the file names are equal and the
    sizes are equal (sizes being integers that are not negative), also
    when a file name contains underscores or digits. *)
Theorem createPdfKey_injective (name1 name2 : string) (size1 size2 : Z) :
  0 <= size1 -> 0 <= size2 ->
  createPdfKey name1 size1 = createPdfKey name2 size2
  <-> name1 = name2 /\ size1 = size2.
Proof.
  intros H1 H2. split; [|now intros [-> ->]].
  intros Heq. unfold createPdfKey in Heq.
  apply (f_equal list_ascii_of_string) in Heq.
  rewrite !list_ascii_of_string_app in Heq.
  rewrite !list_ascii_of_string_of_list_ascii in Heq.
  apply app_inv_head in Heq.
  change (list_ascii_of_string "_") with [UNDERSCORE] in Heq.
  cbn [app] in Heq.
  apply split_at_last in Heq as [Hname Hsize];
    try (apply (toStringRadix_no_underscore 10); lia).
  split; [now apply list_ascii_of_string_inj|].
  apply (toStringRadix_inj 10) in Hsize; try lia; exact Hsize.
Qed.

(** The theorem at two files whose names and sizes print alike. *)
Lemma createPdfKey_injective_witness :
  createPdfKey "a_1" 2 = createPdfKey "a" 12
  <-> ("a_1" = "a")%string /\ 2 = 12.
Proof.
  apply (createPdfKey_injective "a_1" "a" 2 12); lia.
Defined.

(** X18.  [createQuizKey] adds no collision to those of the hash:
    for hashes made by [generateTextHash], two quiz keys are equal
    exactly when the hashes are equal and the serialized options are
    equal. *)
Theorem createQuizKey_equal_iff (text1 text2 : jsstring)
  (options1 options2 : string) :
  createQuizKey (generateTextHash text1) options1
  = createQuizKey (generateTextHash text2) options2
  <-> generateTextHash text1 = generateTextHash text2
      /\ options1 = options2.
Proof.
  split; [|now intros [-> ->]].
  unfold createQuizKey, generateTextHash. intros Heq.
  apply (f_equal list_ascii_of_string) in Heq.
  rewrite !list_ascii_of_string_app in Heq.
  rewrite !list_ascii_of_string_of_list_ascii in Heq.
  apply app_inv_head in Heq.
  change (list_ascii_of_string "_") with [UNDERSCORE] in Heq.
  cbn [app] in Heq.
  apply split_at_first in Heq as [Hhash Hopt];
    try (apply (toStringRadix_no_underscore 36); lia).
  split; [now rewrite Hhash | now apply list_ascii_of_string_inj].
Qed.

(** X20.  A key made by [createPdfKey] is never a key made by
    [createQuizKey]: the parsed documents and the quizzes, which the
    page keeps in the same cache, cannot take each other's entries. *)
Theorem pdf_keys_and_quiz_keys_are_disjoint (fileName : string)
  (fileSize : Z) (textHash optionsJson : string) :
  createPdfKey fileName fileSize <> createQuizKey textHash optionsJson.
Proof. unfold createPdfKey, createQuizKey. cbn. discriminate. Qed.

End CacheKeysFacts.

(** * Properties of the export file names *)

Module ExportUtilFacts.

Import ExportUtil.

(** A fact about every code unit below 256, by cases. *)
Ltac by_cases_on_char c :=
  destruct c as [[|] [|] [|] [|] [|] [|] [|] [|]];
  vm_compute; try reflexivity; try discriminate; auto.

Lemma isUnderscore_eq c : isUnderscore c = true -> c = UNDERSCORE.
Proof. by_cases_on_char c. Qed.

Lemma kept_nonwhite_lower_safe c :
  keptInFilename c = true -> isWhiteSpace c = false ->
  safeInFilename (toLowerChar c) = true.
Proof. by_cases_on_char c. Qed.

Lemma toLowerChar_underscore c :
  isUnderscore (toLowerChar c) = isUnderscore c.
Proof. by_cases_on_char c. Qed.

Lemma safe_facts c :
  safeInFilename c = true ->
  keptInFilename c = true /\ isWhiteSpace c = false /\ toLowerChar c = c.
Proof. by_cases_on_char c. Qed.

Lemma underscore_facts :
  keptInFilename UNDERSCORE = true /\ isWhiteSpace UNDERSCORE = false
  /\ isUnderscore UNDERSCORE = true.
Proof. repeat split. Qed.

Lemma replaced_clean s :
  Forall (fun c => keptInFilename c = true) s ->
  forall b, Forall cleanChar (replaceWhiteSpaceRunsByUnderscore b s).
Proof.
  induction 1 as [|c s Hc _ IH]; intros b;
    cbn [replaceWhiteSpaceRunsByUnderscore]; [constructor|].
  destruct (isWhiteSpace c) eqn:Hw.
  - destruct b; [apply IH|]. constructor; [|apply IH]. now split.
  - constructor; [now split | apply IH].
Qed.

Lemma collapsed_clean s :
  Forall cleanChar s -> forall b, Forall cleanChar (collapseUnderscores b s).
Proof.
  induction 1 as [|c s Hc _ IH]; intros b; cbn [collapseUnderscores];
    [constructor|].
  destruct (isUnderscore c).
  - destruct b; [apply IH|]. constructor; [|apply IH]. now split.
  - constructor; [exact Hc | apply IH].
Qed.

Lemma collapsed_single s :
  forall b, singleUnderscores b (collapseUnderscores b s).
Proof.
  induction s as [|c s IH]; intros b; cbn [collapseUnderscores]; [exact I|].
  destruct (isUnderscore c) eqn:Hu.
  - destruct b; [apply IH|]. cbn [singleUnderscores].
    change (isUnderscore UNDERSCORE) with true. cbv iota. split; [reflexivity | apply IH].
  - cbn [singleUnderscores]. rewrite Hu. apply IH.
Qed.

Lemma lowered_single s :
  forall b, singleUnderscores b s -> singleUnderscores b (toLowerCase s).
Proof.
  unfold toLowerCase.
  induction s as [|c s IH]; intros b H; [exact I|].
  cbn [map singleUnderscores] in *. rewrite toLowerChar_underscore.
  destruct (isUnderscore c); [destruct H as [Hb H]; split; auto | auto].
Qed.

Lemma filter_kept_all s :
  Forall (fun c => safeInFilename c = true) s -> filter keptInFilename s = s.
Proof.
  induction 1 as [|c s Hc _ IH]; [reflexivity|].
  cbn [filter]. destruct (safe_facts c Hc) as (-> & _ & _). now f_equal.
Qed.

Lemma replace_nothing s :
  Forall (fun c => safeInFilename c = true) s ->
  forall b, replaceWhiteSpaceRunsByUnderscore b s = s.
Proof.
  induction 1 as [|c s Hc _ IH]; intros b; [reflexivity|].
  cbn [replaceWhiteSpaceRunsByUnderscore].
  destruct (safe_facts c Hc) as (_ & -> & _). now rewrite IH.
Qed.

Lemma collapse_nothing s :
  forall b, singleUnderscores b s -> collapseUnderscores b s = s.
Proof.
  induction s as [|c s IH]; intros b H; [reflexivity|].
  cbn [collapseUnderscores singleUnderscores] in *.
  destruct (isUnderscore c) eqn:Hu.
  - destruct H as [-> H]. apply isUnderscore_eq in Hu. subst c.
    f_equal. now apply IH.
  - f_equal. now apply IH.
Qed.

Lemma lower_nothing s :
  Forall (fun c => safeInFilename c = true) s -> toLowerCase s = s.
Proof.
  unfold toLowerCase. induction 1 as [|c s Hc _ IH]; [reflexivity|].
  cbn [map]. destruct (safe_facts c Hc) as (_ & _ & ->). now f_equal.
Qed.

(** X19.  The file name [sanitizeFilename] makes consists of lower
    case letters, digits, hyphens and underscores only, never has two
    underscores in a row, and is left as it is by a second
    sanitization. *)
Theorem sanitizeFilename_safe_and_idempotent (filename : jsstring) :
  Forall (fun c => safeInFilename c = true) (sanitizeFilename filename)
  /\ singleUnderscores false (sanitizeFilename filename)
  /\ sanitizeFilename (sanitizeFilename filename) = sanitizeFilename filename.
Proof.
  assert (Hsafe : Forall (fun c => safeInFilename c = true)
                    (sanitizeFilename filename)).
  { unfold sanitizeFilename, toLowerCase. apply Forall_map.
    eapply Forall_impl;
      [|apply collapsed_clean, replaced_clean, Forall_forall;
        intros c Hc; now apply filter_In in Hc].
    intros c [Hk Hw]. now apply kept_nonwhite_lower_safe. }
  assert (Hsingle : singleUnderscores false (sanitizeFilename filename))
    by (apply lowered_single, collapsed_single).
  split; [exact Hsafe|]. split; [exact Hsingle|].
  unfold sanitizeFilename at 1.
  rewrite (filter_kept_all _ Hsafe), (replace_nothing _ Hsafe),
    (collapse_nothing _ _ Hsingle).
  now apply lower_nothing.
Qed.

End ExportUtilFacts.

(** * Properties of the text validation *)

Module ModelClientFacts.

Import ModelClient.

(** X21.  [validateTextForQuiz] accepts exactly the texts of 50 to
    10000 words (words of the trimmed text, as [split] counts them);
    the check for an empty text changes nothing to that, an empty or
    blank text counting as one word; a message comes with every
    refusal and with no acceptance; and for an accepted text
    [estimateQuestionCount] is the number of words divided by 150,
    rounded down, but at least 1 and at most 20. *)
Theorem validateTextForQuiz_accepts_iff (text : jsstring) :
  let words := Z.of_nat (length (split (trim text))) in
  (isValid (validateTextForQuiz text) = true <-> 50 <= words <= 10000)
  /\ (isValid (validateTextForQuiz text) = true
      <-> message (validateTextForQuiz text) = None)
  /\ 1 <= estimateQuestionCount text <= 20
  /\ (isValid (validateTextForQuiz text) = true ->
      estimateQuestionCount text = Z.max 1 (Z.min (words / 150) 20)
      /\ 150 * estimateQuestionCount text <= Z.max words 150).
Proof.
  cbn zeta. unfold validateTextForQuiz, estimateQuestionCount. cbv zeta.
  set (words := Z.of_nat (length (split (trim text)))).
  assert (Hblank : strlen (trim text) = 0 -> words = 1).
  { intros H. apply strlen_zero_nil in H. subst words. now rewrite H. }
  assert (Hempty : text = [] -> words = 1) by (now intros ->).
  pose proof (Z.div_pos words 150) as Hq.
  assert (Hmul : 150 * (words / 150) <= words)
    by (apply Z.mul_div_le; lia).
  destruct text as [|c rest]; cbn [orb].
  - specialize (Hempty eq_refl). cbn [isValid message].
    repeat split; try discriminate; try lia.
  - destruct (strlen (trim (c :: rest)) =? 0) eqn:Hz; zbool;
      cbn [isValid message].
    + specialize (Hblank Hz). repeat split; try discriminate; try lia.
    + destruct (words <? 50) eqn:H50; zbool; cbn [isValid message];
        [repeat split; try discriminate; try lia|].
      destruct (10000 <? words) eqn:Hbig; zbool; cbn [isValid message];
        repeat split; try discriminate; try lia.
Qed.

End ModelClientFacts.
